(** * The pod-task registry and the scheduler configuration

    A shallow embedding of [inMemoryTaskRegistry] (package [scheduler]) and of
    [Config] (package [config]).  Go objects reached through pointers live in
    an explicit store, so that a mutation made through one pointer is seen
    through every alias; a Go panic is an outcome of its own, and the store as
    it was when the panic was raised is kept. *)

From Stdlib Require Import ZArith Strings.Byte.
From stdpp Require Import gmap strings list fin_maps.

#[local] Set Warnings "-clear-no-such-hyp".

(** ** Packages the registry imports *)

(** [time.Time] and [time.Duration]: a count of nanoseconds. *)
Definition Time := Z.

Module api.

Inductive PodPhase := PodPending | PodRunning | PodSucceeded | PodFailed | PodUnknown.

(** Of a container's status the registry reads [PodIP] only. *)
Record ContainerStatus := { PodIP : string }.

(** [type PodInfo map[string]ContainerStatus] *)
Abbreviation PodInfo := (gmap string ContainerStatus).

Record PodStatus := {
  Phase : PodPhase;
  Info : PodInfo;
  StatusPodIP : string (* the field PodStatus.PodIP *)
}.

Record Pod := { Name : string; Status : PodStatus }.

End api.

Module mesos.

(** The seven task states of the switch in [updateStatus]; any other
    value of the enumeration is [TASK_OTHER] and reaches [default:]. *)
Inductive TaskState :=
| TASK_STAGING | TASK_STARTING | TASK_RUNNING | TASK_FINISHED
| TASK_FAILED | TASK_KILLED | TASK_LOST | TASK_OTHER.

(** Of a status message the registry reads the task id, the state and
    the data; [Data = None] is the nil slice. *)
Record TaskStatus := {
  TaskId : string;
  State : TaskState;
  Data : option (list byte)
}.

Definition GetTaskId_GetValue (s : TaskStatus) : string := TaskId s.
Definition GetState (s : TaskStatus) : TaskState := State s.

End mesos.

(** [glog]: an entry keeps its severity and its format string. *)
Inductive Severity := INFO | WARNING | ERROR.
Definition LogEntry : Type := Severity * string.

Module scheduler.

Definition NetContainerID : string := "net".
Definition defaultFinishedTasksSize : nat := 1024.

(** Modelled from the spec: the declaration of [StateType] is missing
    from the sources; section 3 of the specification lists the four
    states. *)
Inductive StateType := StatePending | StateRunning | StateFinished | StateUnknown.

(** Modelled from the spec: the declaration of [FlagType] is missing;
    section 3 names the marker [Deleted] among the markers of a task. *)
Inductive FlagType := Deleted | Flag (n : nat).

(** Modelled from the spec: the declaration of [PodTask] is missing;
    section 3 lists its fields, the pod being a snapshot held in the task
    with its mutable status (phase, info map, pod IP). *)
Record PodTask := {
  ID : string;
  Pod : api.Pod;
  State : StateType;
  Flags : list FlagType;
  podKey : string;
  launchTime : Time;
  bindTime : Time;
  UpdatedTime : Time
}.

#[global] Instance StateType_eq_dec : EqDecision StateType.
Proof. solve_decision. Defined.
#[global] Instance FlagType_eq_dec : EqDecision FlagType.
Proof. solve_decision. Defined.

(** Modelled from the spec: the method [Has] is missing; a task has a
    marker when the marker is in its set of flags. *)
Definition Has (t : PodTask) (f : FlagType) : bool := bool_decide (f ∈ Flags t).

(** Field assignments. *)
Definition set_State (v : StateType) (t : PodTask) : PodTask :=
  {| ID := ID t; Pod := Pod t; State := v; Flags := Flags t; podKey := podKey t;
     launchTime := launchTime t; bindTime := bindTime t; UpdatedTime := UpdatedTime t |}.
Definition set_UpdatedTime (v : Time) (t : PodTask) : PodTask :=
  {| ID := ID t; Pod := Pod t; State := State t; Flags := Flags t; podKey := podKey t;
     launchTime := launchTime t; bindTime := bindTime t; UpdatedTime := v |}.
Definition set_bindTime (v : Time) (t : PodTask) : PodTask :=
  {| ID := ID t; Pod := Pod t; State := State t; Flags := Flags t; podKey := podKey t;
     launchTime := launchTime t; bindTime := v; UpdatedTime := UpdatedTime t |}.
Definition set_PodStatus (v : api.PodStatus) (t : PodTask) : PodTask :=
  {| ID := ID t; Pod := {| api.Name := api.Name (Pod t); api.Status := v |};
     State := State t; Flags := Flags t; podKey := podKey t;
     launchTime := launchTime t; bindTime := bindTime t; UpdatedTime := UpdatedTime t |}.
Definition set_Phase (v : api.PodPhase) (t : PodTask) : PodTask :=
  set_PodStatus {| api.Phase := v; api.Info := api.Info (api.Status (Pod t));
                   api.StatusPodIP := api.StatusPodIP (api.Status (Pod t)) |} t.
Definition set_Info (v : api.PodInfo) (t : PodTask) : PodTask :=
  set_PodStatus {| api.Phase := api.Phase (api.Status (Pod t)); api.Info := v;
                   api.StatusPodIP := api.StatusPodIP (api.Status (Pod t)) |} t.
Definition set_PodIP (v : string) (t : PodTask) : PodTask :=
  set_PodStatus {| api.Phase := api.Phase (api.Status (Pod t));
                   api.Info := api.Info (api.Status (Pod t));
                   api.StatusPodIP := v |} t.

(** *** The store *)

(** The address of a [PodTask]; a [*PodTask] is [option loc], nil being
    [None]. *)
Abbreviation loc := positive.

(** [type inMemoryTaskRegistry struct]; the lock [rw] has no part in a
    sequential run.  [tasksFinished] points at one element of the ring,
    given by its index among the ring's elements, and is nil for the
    ring of no element. *)
Record inMemoryTaskRegistry := {
  taskRegistry : gmap string loc;
  tasksFinished : option nat;
  podToTask : gmap string string
}.

Record World := {
  heap : gmap loc PodTask;          (* the tasks allocated by the callers *)
  ringValues : list (option string);  (* [Value] of each element of the ring, in link order *)
  k : inMemoryTaskRegistry;
  verbosity : nat;                  (* glog's -v *)
  glog : list LogEntry              (* what has been logged, oldest first *)
}.

Definition set_k (v : inMemoryTaskRegistry) (w : World) : World :=
  {| heap := heap w; ringValues := ringValues w; k := v;
     verbosity := verbosity w; glog := glog w |}.
Definition set_heap (v : gmap loc PodTask) (w : World) : World :=
  {| heap := v; ringValues := ringValues w; k := k w;
     verbosity := verbosity w; glog := glog w |}.
Definition set_ringValues (v : list (option string)) (w : World) : World :=
  {| heap := heap w; ringValues := v; k := k w;
     verbosity := verbosity w; glog := glog w |}.
Definition set_glog (v : list LogEntry) (w : World) : World :=
  {| heap := heap w; ringValues := ringValues w; k := k w;
     verbosity := verbosity w; glog := v |}.

Definition set_taskRegistry (v : gmap string loc) (r : inMemoryTaskRegistry) :=
  {| taskRegistry := v; tasksFinished := tasksFinished r; podToTask := podToTask r |}.
Definition set_tasksFinished (v : option nat) (r : inMemoryTaskRegistry) :=
  {| taskRegistry := taskRegistry r; tasksFinished := v; podToTask := podToTask r |}.
Definition set_podToTask (v : gmap string string) (r : inMemoryTaskRegistry) :=
  {| taskRegistry := taskRegistry r; tasksFinished := tasksFinished r; podToTask := v |}.

(** *** Computations that mutate the store and may panic *)

Inductive outcome (A : Type) := Ret (a : A) | Panic (msg : string).
Arguments Ret {A} a.
Arguments Panic {A} msg.

Definition M (A : Type) : Type := World -> outcome A * World.

Definition ret {A} (a : A) : M A := fun w => (Ret a, w).
Definition bind {A B} (m : M A) (f : A -> M B) : M B :=
  fun w => match m w with
           | (Ret a, w') => f a w'
           | (Panic msg, w') => (Panic msg, w')
           end.
Definition panic {A} (msg : string) : M A := fun w => (Panic msg, w).
Definition get : M World := fun w => (Ret w, w).
Definition modify (f : World -> World) : M unit := fun w => (Ret tt, f w).

(** [defer d] around [body]: [d] runs when [body] returns and when it
    panics, and the panic goes on afterwards. *)
Definition defer {A} (d : M unit) (body : M A) : M A :=
  fun w => match body w with
           | (o, w') => match d w' with
                        | (Ret _, w'') => (o, w'')
                        | (Panic msg, w'') => (Panic msg, w'')
                        end
           end.

Notation "x <- c1 ;; c2" := (bind c1 (fun x => c2))
  (at level 100, c1 at next level, right associativity).
Notation "c1 ;; c2" := (bind c1 (fun _ => c2))
  (at level 100, right associativity).

Definition nil_dereference : string :=
  "runtime error: invalid memory address or nil pointer dereference".

(** Reading [*task]: a nil pointer panics (and so does an address that
    holds no task, which no Go program can form). *)
Definition load (task : option loc) : M PodTask :=
  w <- get ;;
  match task with
  | Some p => match heap w !! p with
              | Some t => ret t
              | None => panic nil_dereference
              end
  | None => panic nil_dereference
  end.

(** Assigning to a field of [*task]. *)
Definition update (task : option loc) (f : PodTask -> PodTask) : M unit :=
  t <- load task ;;
  match task with
  | Some p => modify (fun w => set_heap (<[p := f t]> (heap w)) w)
  | None => panic nil_dereference
  end.

Definition log (sev : Severity) (fmt : string) : M unit :=
  modify (fun w => set_glog (glog w ++ [(sev, fmt)]) w).

(** [log.V(n).Info...] *)
Definition log_V (n : nat) (fmt : string) : M unit :=
  w <- get ;;
  if bool_decide (n <= verbosity w)%nat then log INFO fmt else ret tt.

Definition modify_k (f : inMemoryTaskRegistry -> inMemoryTaskRegistry) : M unit :=
  modify (fun w => set_k (f (k w)) w).

(** [error]: nil is [None]. *)
Definition error := option string.

(** *** The registry *)

(** [func (k *inMemoryTaskRegistry) taskForPod(podID string) (taskID string, ok bool)] *)
Definition taskForPod (podID : string) : M (string * bool) :=
  w <- get ;;
  match podToTask (k w) !! podID with
  | Some taskID => ret (taskID, true)
  | None => ret (EmptyString, false)
  end.

(** [func (k *inMemoryTaskRegistry) register(task *PodTask, err error)], returning the task and the error *)
Definition register (task : option loc) (err : error) : M (option loc * error) :=
  match err with
  | None =>
      t <- load task ;;
      modify_k (fun r => set_podToTask (<[podKey t := ID t]> (podToTask r)) r) ;;
      t <- load task ;;
      match task with
      | Some p => modify_k (fun r => set_taskRegistry (<[ID t := p]> (taskRegistry r)) r)
      | None => panic nil_dereference
      end ;;
      ret (task, err)
  | Some _ => ret (task, err)
  end.

(** [func (k *inMemoryTaskRegistry) unregister(task *PodTask)] *)
Definition unregister (task : option loc) : M unit :=
  t <- load task ;;
  modify_k (fun r => set_podToTask (delete (podKey t) (podToTask r)) r) ;;
  t <- load task ;;
  modify_k (fun r => set_taskRegistry (delete (ID t) (taskRegistry r)) r).

(** [func (k *inMemoryTaskRegistry) _get(taskId string)], returning the task and its state *)
Definition _get (taskId : string) : M (option loc * StateType) :=
  w <- get ;;
  match taskRegistry (k w) !! taskId with
  | Some p => t <- load (Some p) ;; ret (Some p, State t)
  | None => ret (None, StateUnknown)
  end.

(** [func (k *inMemoryTaskRegistry) get(taskId string)] *)
Definition get_ (taskId : string) : M (option loc * StateType) := _get taskId.

(** *** The ring of finished tasks ([container/ring]) *)

(** [ring.New(n)]: the values of its [n] elements and the pointer
    returned, nil when [n] is 0. *)
Definition ring_New (n : nat) : list (option string) * option nat :=
  (replicate n None, match n with O => None | S _ => Some O end).

(** [r.Next()] *)
Definition ring_Next (r : option nat) : M nat :=
  w <- get ;;
  match r with
  | Some i => ret (S i mod length (ringValues w))
  | None => panic nil_dereference
  end.

(** [slot.Value] *)
Definition ring_Value (slot : nat) : M (option string) :=
  w <- get ;;
  match ringValues w !! slot with
  | Some v => ret v
  | None => panic nil_dereference
  end.

(** [slot.Value = v] *)
Definition ring_set_Value (slot : nat) (v : string) : M unit :=
  w <- get ;;
  match ringValues w !! slot with
  | Some _ => modify (set_ringValues (<[slot := Some v]> (ringValues w)))
  | None => panic nil_dereference
  end.

(** [func NewInMemoryTaskRegistry() TaskRegistry], with the ring's size
    as a parameter, in a store that holds the tasks [h]. *)
Definition newInMemoryTaskRegistry (size : nat) (h : gmap loc PodTask) (v : nat) : World :=
  {| heap := h;
     ringValues := fst (ring_New size);
     k := {| taskRegistry := ∅; tasksFinished := snd (ring_New size); podToTask := ∅ |};
     verbosity := v;
     glog := [] |}.

Definition NewInMemoryTaskRegistry : gmap loc PodTask -> nat -> World :=
  newInMemoryTaskRegistry defaultFinishedTasksSize.

(** [func (k *inMemoryTaskRegistry) recordFinishedTask(taskId string) *ring.Ring] *)
Definition recordFinishedTask (taskId : string) : M nat :=
  w <- get ;;
  slot <- ring_Next (tasksFinished (k w)) ;;
  v <- ring_Value slot ;;
  match v with
  | Some gctaskId =>
      w <- get ;;
      match taskRegistry (k w) !! gctaskId with
      | Some gctask =>
          t <- load (Some gctask) ;;
          if decide (State t = StateFinished)
          then modify_k (fun r => set_taskRegistry (delete gctaskId (taskRegistry r)) r)
          else ret tt
      | None => ret tt
      end
  | None => ret tt
  end ;;
  ring_set_Value slot taskId ;;
  ret slot.

(** The statement [k.tasksFinished = k.recordFinishedTask(taskId)] of
    [handleTaskFinished]. *)
Definition recordFinished (taskId : string) : M unit :=
  slot <- recordFinishedTask taskId ;;
  modify_k (set_tasksFinished (Some slot)).

(** *** The status handlers *)

Section handlers.

(** [json.Unmarshal(data, &info)] on a nil [info]: the decoded map, or
    [None] for an error. *)
Variable json_Unmarshal : list byte -> option api.PodInfo.

(** [time.Now()] during one call of [updateStatus]. *)
Variable now : Time.

Definition handleTaskStaging (task : option loc) (state : StateType)
    (status : mesos.TaskStatus) : M unit :=
  log ERROR "Not implemented: task staging".

Definition handleTaskStarting (task : option loc) (state : StateType)
    (status : mesos.TaskStatus) : M unit :=
  match state with
  | StatePending =>
      update task (set_UpdatedTime now) ;;
      t <- load task ;;
      update task (set_bindTime (UpdatedTime t)) ;;
      _ <- load task ;;
      log_V 1 "metric time_to_bind %v task %v pod %v"
  | _ => log WARNING "Ignore status TASK_STARTING because the the task is not pending"
  end.

Definition fillRunningPodInfo (task : option loc) (taskStatus : mesos.TaskStatus) : M unit :=
  update task (set_Phase api.PodRunning) ;;
  match mesos.Data taskStatus with
  | Some data =>
      match json_Unmarshal data with
      | Some info =>
          update task (set_Info info) ;;
          match info !! NetContainerID with
          | Some netContainerInfo =>
              if decide (api.PodIP netContainerInfo = EmptyString)
              then log WARNING "No network settings: %#v"
              else update task (set_PodIP (api.PodIP netContainerInfo))
          | None =>
              _ <- load task ;;
              log WARNING "Couldn't find network container for %s in %v"
          end
      | None =>
          _ <- load task ;;
          log ERROR "Invalid TaskStatus.Data for task '%v': %v"
      end
  | None =>
      _ <- load task ;;
      log ERROR "Missing TaskStatus.Data for task '%v'"
  end.

Definition handleTaskRunning (task : option loc) (state : StateType)
    (status : mesos.TaskStatus) : M unit :=
  match state with
  | StatePending =>
      update task (set_UpdatedTime now) ;;
      log INFO "Received running status for pending task: %+v" ;;
      fillRunningPodInfo task status ;;
      update task (set_State StateRunning)
  | StateRunning =>
      update task (set_UpdatedTime now) ;;
      log_V 2 "Ignore status TASK_RUNNING because the the task is already running"
  | StateFinished =>
      log WARNING "Ignore status TASK_RUNNING because the the task is already finished"
  | StateUnknown =>
      _ <- load task ;; (* the argument [task.ID] *)
      log WARNING "Ignore status TASK_RUNNING (%s) because the the task is discarded"
  end.

Definition handleTaskFinished (task : option loc) (state : StateType)
    (status : mesos.TaskStatus) : M unit :=
  match state with
  | StatePending => panic "Pending task finished, this couldn't happen"
  | StateRunning =>
      log_V 2 "received finished status for running task: %+v" ;;
      t <- load task ;;
      modify_k (fun r => set_podToTask (delete (podKey t) (podToTask r)) r) ;;
      update task (set_State StateFinished) ;;
      update task (set_UpdatedTime now) ;;
      t <- load task ;;
      recordFinished (ID t)
  | StateFinished =>
      log WARNING "Ignore status TASK_FINISHED because the the task is already finished"
  | StateUnknown =>
      log WARNING "Ignore status TASK_FINISHED because the the task is not running"
  end.

(** [delete(k.taskRegistry, task.ID); delete(k.podToTask, task.podKey)] *)
Definition deleteBoth (task : option loc) : M unit :=
  t <- load task ;;
  modify_k (fun r => set_taskRegistry (delete (ID t) (taskRegistry r)) r) ;;
  t <- load task ;;
  modify_k (fun r => set_podToTask (delete (podKey t) (podToTask r)) r).

Definition handleTaskFailed (task : option loc) (state : StateType)
    (status : mesos.TaskStatus) : M unit :=
  log ERROR "task failed: %+v" ;;
  match state with
  | StatePending => deleteBoth task
  | StateRunning => deleteBoth task
  | _ => ret tt
  end.

Definition handleTaskKilled (task : option loc) (state : StateType)
    (status : mesos.TaskStatus) : M unit :=
  defer
    (let msg := "task killed: %+v, task %+v" in
     match task with
     | Some _ =>
         t <- load task ;;
         if Has t Deleted then log_V 2 msg else log ERROR msg
     | None => log ERROR msg
     end)
    (match state with
     | StatePending | StateRunning => deleteBoth task
     | _ => ret tt
     end).

Definition handleTaskLost (task : option loc) (state : StateType)
    (status : mesos.TaskStatus) : M unit :=
  log WARNING "task lost: %+v" ;;
  match state with
  | StateRunning | StatePending => deleteBoth task
  | _ => ret tt
  end.

(** [func (k *inMemoryTaskRegistry) updateStatus(status *mesos.TaskStatus)],
    returning the task and the state it had before the call. *)
Definition updateStatus (status : mesos.TaskStatus) : M (option loc * StateType) :=
  let taskId := mesos.GetTaskId_GetValue status in
  r <- _get taskId ;;
  let task := fst r in
  let state := snd r in
  match mesos.GetState status with
  | mesos.TASK_STAGING => handleTaskStaging task state status
  | mesos.TASK_STARTING => handleTaskStarting task state status
  | mesos.TASK_RUNNING => handleTaskRunning task state status
  | mesos.TASK_FINISHED => handleTaskFinished task state status
  | mesos.TASK_FAILED => handleTaskFailed task state status
  | mesos.TASK_KILLED => handleTaskKilled task state status
  | mesos.TASK_LOST => handleTaskLost task state status
  | mesos.TASK_OTHER => log WARNING "unhandled task status update: %+v"
  end ;;
  ret (task, state).

End handlers.

(** *** Listing the tasks *)

(** The body of the loop of [list], over the entries still to visit. *)
Fixpoint list_loop (filter : option StateType) (entries : list (string * loc))
    (taskids : list string) : M (list string) :=
  match entries with
  | [] => ret taskids
  | (id, task) :: rest =>
      match filter with
      | None => list_loop filter rest (taskids ++ [id])
      | Some f =>
          t <- load (Some task) ;;
          if decide (f = State t)
          then list_loop filter rest (taskids ++ [id])
          else list_loop filter rest taskids
      end
  end.

(** [func (k *inMemoryTaskRegistry) list(filter *StateType) (taskids []string)];
    a nil [filter] is [None].  Go leaves the order of a [range] over a map
    open; the entries are visited here in the order of [map_to_list]. *)
Definition list_ (filter : option StateType) : M (list string) :=
  w <- get ;;
  list_loop filter (map_to_list (taskRegistry (k w))) [].

End scheduler.

(** ** Package [config] *)

Module config.

Definition Second : Z := 1000000000.
Definition Minute : Z := 60 * Second.

Definition DefaultOfferTTL : Z := 5 * Second.
Definition DefaultOfferLingerTTL : Z := 120 * Second.
Definition DefaultListenerDelay : Z := 1 * Second.
Definition DefaultUpdatesBacklog : Z := 2048.
Definition DefaultFrameworkIdRefreshInterval : Z := 30 * Second.
Definition DefaultInitialImplicitReconciliationDelay : Z := 15 * Second.
Definition DefaultExplicitReconciliationMaxBackoff : Z := 2 * Minute.
Definition DefaultExplicitReconciliationAbortTimeout : Z := 30 * Second.
Definition DefaultInitialPodBackoff : Z := 1 * Second.
Definition DefaultMaxPodBackoff : Z := 60 * Second.
Definition DefaultHttpHandlerTimeout : Z := 10 * Second.

Record WrappedDuration := { Duration : Z }.

Record Config := {
  OfferTTL : WrappedDuration;
  OfferLingerTTL : WrappedDuration;
  ListenerDelay : WrappedDuration;
  UpdatesBacklog : Z;
  FrameworkIdRefreshInterval : WrappedDuration;
  InitialImplicitReconciliationDelay : WrappedDuration;
  ExplicitReconciliationMaxBackoff : WrappedDuration;
  ExplicitReconciliationAbortTimeout : WrappedDuration;
  InitialPodBackoff : WrappedDuration;
  MaxPodBackoff : WrappedDuration;
  HttpHandlerTimeout : WrappedDuration
}.

Record ConfigWrapper := { Scheduler : Config }.

(** The [gcfg] tag of each field, as declared. *)
Inductive Field :=
| FOfferTTL | FOfferLingerTTL | FListenerDelay | FUpdatesBacklog
| FFrameworkIdRefreshInterval | FInitialImplicitReconciliationDelay
| FExplicitReconciliationMaxBackoff | FExplicitReconciliationAbortTimeout
| FInitialPodBackoff | FMaxPodBackoff | FHttpHandlerTimeout.

Definition tag (f : Field) : string :=
  match f with
  | FOfferTTL => "offer-ttl"
  | FOfferLingerTTL => "offer-linger-ttl"
  | FListenerDelay => "listener-delay"
  | FUpdatesBacklog => "updates-backlog"
  | FFrameworkIdRefreshInterval => "framework-id-refresh-interval"
  | FInitialImplicitReconciliationDelay => "initial-implicit-reconciliation-delay"
  | FExplicitReconciliationMaxBackoff => "explicit-reconciliantion-max-backoff"
  | FExplicitReconciliationAbortTimeout => "explicit-reconciliantion-abort-timeout"
  | FInitialPodBackoff => "initial-pod-backoff"
  | FMaxPodBackoff => "max-pod-backoff"
  | FHttpHandlerTimeout => "http-handler-timeout"
  end.

Definition all_fields : list Field :=
  [FOfferTTL; FOfferLingerTTL; FListenerDelay; FUpdatesBacklog;
   FFrameworkIdRefreshInterval; FInitialImplicitReconciliationDelay;
   FExplicitReconciliationMaxBackoff; FExplicitReconciliationAbortTimeout;
   FInitialPodBackoff; FMaxPodBackoff; FHttpHandlerTimeout].

(** The number a field holds: nanoseconds, or the backlog's size. *)
Definition field_value (f : Field) (c : Config) : Z :=
  match f with
  | FOfferTTL => Duration (OfferTTL c)
  | FOfferLingerTTL => Duration (OfferLingerTTL c)
  | FListenerDelay => Duration (ListenerDelay c)
  | FUpdatesBacklog => UpdatesBacklog c
  | FFrameworkIdRefreshInterval => Duration (FrameworkIdRefreshInterval c)
  | FInitialImplicitReconciliationDelay => Duration (InitialImplicitReconciliationDelay c)
  | FExplicitReconciliationMaxBackoff => Duration (ExplicitReconciliationMaxBackoff c)
  | FExplicitReconciliationAbortTimeout => Duration (ExplicitReconciliationAbortTimeout c)
  | FInitialPodBackoff => Duration (InitialPodBackoff c)
  | FMaxPodBackoff => Duration (MaxPodBackoff c)
  | FHttpHandlerTimeout => Duration (HttpHandlerTimeout c)
  end.

Definition error := option string.

(** [func (c *Config) SetDefaults()] *)
Definition SetDefaults (c : Config) : Config :=
  {| OfferTTL := {| Duration := DefaultOfferTTL |};
     OfferLingerTTL := {| Duration := DefaultOfferLingerTTL |};
     ListenerDelay := {| Duration := DefaultListenerDelay |};
     UpdatesBacklog := DefaultUpdatesBacklog;
     FrameworkIdRefreshInterval := {| Duration := DefaultFrameworkIdRefreshInterval |};
     InitialImplicitReconciliationDelay :=
       {| Duration := DefaultInitialImplicitReconciliationDelay |};
     ExplicitReconciliationMaxBackoff :=
       {| Duration := DefaultExplicitReconciliationMaxBackoff |};
     ExplicitReconciliationAbortTimeout :=
       {| Duration := DefaultExplicitReconciliationAbortTimeout |};
     InitialPodBackoff := {| Duration := DefaultInitialPodBackoff |};
     MaxPodBackoff := {| Duration := DefaultMaxPodBackoff |};
     HttpHandlerTimeout := {| Duration := DefaultHttpHandlerTimeout |} |}.

(** The zero value [Config{}]. *)
Definition zeroConfig : Config :=
  let z := {| Duration := 0 |} in
  {| OfferTTL := z; OfferLingerTTL := z; ListenerDelay := z; UpdatesBacklog := 0;
     FrameworkIdRefreshInterval := z; InitialImplicitReconciliationDelay := z;
     ExplicitReconciliationMaxBackoff := z; ExplicitReconciliationAbortTimeout := z;
     InitialPodBackoff := z; MaxPodBackoff := z; HttpHandlerTimeout := z |}.

(** [func CreateDefaultConfig() *Config] *)
Definition CreateDefaultConfig : Config := SetDefaults zeroConfig.

Section read.

(** What a reader delivers. *)
Variable Reader : Type.

(** [time.ParseDuration] *)
Variable time_ParseDuration : string -> Z + string.

(** [func (wd *WrappedDuration) UnmarshalText(data []byte) error]:
    the receiver after the call and the error. *)
Definition UnmarshalText (wd : WrappedDuration) (data : string) : WrappedDuration * error :=
  match time_ParseDuration data with
  | inl d => ({| Duration := d |}, None)
  | inr err => (wd, Some err)
  end.

(** [gcfg.ReadInto(wrapper, configReader)]: the struct [wrapper]
    points at after the call, and the error. *)
Variable gcfg_ReadInto : ConfigWrapper -> Reader -> ConfigWrapper * error.

(** The two objects [Read] works on, after the call: the receiver
    [*c] and the local [*wrapper]. *)
Record ReadResult := {
  receiver : Config;
  wrapper : ConfigWrapper;
  err : error
}.

(** [func (c *Config) Read(configReader io.Reader) error].
    [wrapper] is a new struct whose field [Scheduler] is a copy of
    [*c]; no statement assigns to [*c]. *)
Definition Read (c : Config) (configReader : option Reader) : ReadResult :=
  let wrapper0 := {| Scheduler := c |} in
  match configReader with
  | Some r =>
      match gcfg_ReadInto wrapper0 r with
      | (wrapper1, Some e) => {| receiver := c; wrapper := wrapper1; err := Some e |}
      | (wrapper1, None) => {| receiver := c; wrapper := wrapper1; err := None |}
      end
  | None => {| receiver := c; wrapper := wrapper0; err := None |}
  end.

End read.

End config.

(** ** Notions used to state the properties *)

Module props.
Import scheduler.

(** What the two calls [register(t, nil)] and [unregister(t)] do, one
    after the other. *)
Definition register_then_unregister (task : option loc) : M unit :=
  _ <- register task None ;; unregister task.

(** The order Pending < Running < Finished on the states of a task;
    [StateUnknown] is comparable with itself only. *)
Definition state_le (a b : StateType) : bool :=
  match a, b with
  | StatePending, (StatePending | StateRunning | StateFinished) => true
  | StateRunning, (StateRunning | StateFinished) => true
  | StateFinished, StateFinished => true
  | StateUnknown, StateUnknown => true
  | _, _ => false
  end.

(** The store after a sequence of calls of [updateStatus], each with
    the time it reads; a call that panics leaves the store as it was at
    the panic, and the next call starts from there. *)
Fixpoint updateStatuses (json_Unmarshal : list byte -> option api.PodInfo)
    (msgs : list (Time * mesos.TaskStatus)) (w : World) : World :=
  match msgs with
  | [] => w
  | (now, status) :: rest =>
      updateStatuses json_Unmarshal rest (snd (updateStatus json_Unmarshal now status w))
  end.

(** From [w] to [w'] no task of the store has gone back in the order
    of states, and the tasks table has bound no id anew. *)
Definition no_regress (w w' : World) : Prop :=
  (forall q tq, heap w !! q = Some tq ->
     exists tq', heap w' !! q = Some tq' /\ state_le (State tq) (State tq') = true) /\
  (forall id q, taskRegistry (k w') !! id = Some q -> taskRegistry (k w) !! id = Some q).

(** What each message logs for a task id that is not in the tasks
    table, when the call returns. *)
Definition unknown_task_log (s : mesos.TaskState) : LogEntry :=
  match s with
  | mesos.TASK_STAGING => (ERROR, "Not implemented: task staging")
  | mesos.TASK_STARTING =>
      (WARNING, "Ignore status TASK_STARTING because the the task is not pending")
  | mesos.TASK_RUNNING =>
      (WARNING, "Ignore status TASK_RUNNING (%s) because the the task is discarded")
  | mesos.TASK_FINISHED =>
      (WARNING, "Ignore status TASK_FINISHED because the the task is not running")
  | mesos.TASK_FAILED => (ERROR, "task failed: %+v")
  | mesos.TASK_KILLED => (ERROR, "task killed: %+v, task %+v")
  | mesos.TASK_LOST => (WARNING, "task lost: %+v")
  | mesos.TASK_OTHER => (WARNING, "unhandled task status update: %+v")
  end.

(** [recordFinished] for each id of a list, first to last. *)
Fixpoint recordFinishedAll (ids : list string) : M unit :=
  match ids with
  | [] => ret tt
  | id :: rest => _ <- recordFinished id ;; recordFinishedAll rest
  end.

(** The values of the ring read from the element after the one
    [tasksFinished] points at, once around: the next slot to be
    overwritten comes first and the last one written comes last. *)
Definition ringView (w : World) : list (option string) :=
  match tasksFinished (k w) with
  | Some i => rotate (S i) (ringValues w)
  | None => []
  end.

(** Every entry of the tasks table points at a task of the store, as
    every pointer of a Go program does. *)
Definition no_dangling (w : World) : Prop :=
  forall id p, taskRegistry (k w) !! id = Some p -> is_Some (heap w !! p).

(** The slot that the next [recordFinished] overwrites holds [gid]. *)
Definition next_slot_holds (w : World) (gid : string) : Prop :=
  exists i, tasksFinished (k w) = Some i /\
            ringValues w !! (S i mod length (ringValues w)) = Some (Some gid).

(** The task with id [gid] is in the tasks table and its state is
    Finished. *)
Definition finished_in_tasks (w : World) (gid : string) : Prop :=
  exists p t, taskRegistry (k w) !! gid = Some p /\ heap w !! p = Some t /\
              State t = StateFinished.

End props.

(** ** Concrete tasks, registries and configuration files *)

Module fixtures.
Import scheduler.

Definition emptyStatus : api.PodStatus :=
  {| api.Phase := api.PodPending; api.Info := ∅; api.StatusPodIP := EmptyString |}.

Definition mkTask (id key : string) (st : StateType) : PodTask :=
  {| ID := id; Pod := {| api.Name := id; api.Status := emptyStatus |};
     State := st; Flags := []; podKey := key;
     launchTime := 0%Z; bindTime := 0%Z; UpdatedTime := 0%Z |}.

Definition mkWorld (h : gmap loc PodTask) (ring : list (option string) * option nat)
    (tasks : gmap string loc) (pods : gmap string string) : World :=
  {| heap := h; ringValues := fst ring;
     k := {| taskRegistry := tasks; tasksFinished := snd ring; podToTask := pods |};
     verbosity := 0; glog := [] |}.

(** Two task objects for one pod with the same id; the first one is
    registered. *)
Definition T1 : PodTask := mkTask "T1" "/pods/ns/a" StatePending.
Definition w_dup : World :=
  mkWorld (<[1%positive := T1]> (<[2%positive := T1]> ∅))
          (ring_New 3)
          (<["T1" := 1%positive]> ∅) (<["/pods/ns/a" := "T1"]> ∅).

(** An empty registry whose store holds one task. *)
Definition w_new : World :=
  mkWorld (<[1%positive := T1]> ∅) (ring_New 3) ∅ ∅.

(** A stale task [T0] and the task [T1] that now runs the same pod. *)
Definition T0 : PodTask := mkTask "T0" "/pods/ns/a" StatePending.
Definition w_stale : World :=
  mkWorld (<[1%positive := T1]> (<[5%positive := T0]> ∅))
          (ring_New 3)
          (<["T1" := 1%positive]> ∅) (<["/pods/ns/a" := "T1"]> ∅).

(** A task that has finished and is still in the tasks table. *)
Definition T9 : PodTask := mkTask "T9" "/pods/ns/z" StateFinished.
Definition w_fin : World :=
  mkWorld (<[9%positive := T9]> ∅) (ring_New 3) (<["T9" := 9%positive]> ∅) ∅.

(** Four finished tasks in the tasks table and a new ring of three
    elements. *)
Definition w_ring : World :=
  mkWorld (<[1%positive := mkTask "A" "/pods/ns/a" StateFinished]>
           (<[2%positive := mkTask "B" "/pods/ns/b" StateFinished]>
            (<[3%positive := mkTask "C" "/pods/ns/c" StateFinished]>
             (<[4%positive := mkTask "D" "/pods/ns/d" StateFinished]> ∅))))
          (ring_New 3)
          (<["A" := 1%positive]> (<["B" := 2%positive]>
             (<["C" := 3%positive]> (<["D" := 4%positive]> ∅))))
          ∅.

(** The bytes of the pod info [{net: {PodIP: 10.0.0.7}}] in JSON, and
    a decoder that knows this one document. *)
Definition net_data : list byte :=
  [x7b; x22; x6e; x65; x74; x22; x3a; x7b; x22; x50; x6f; x64; x49; x50; x22; x3a;
   x22; x31; x30; x2e; x30; x2e; x30; x2e; x37; x22; x7d; x7d].

Definition net_info : api.PodInfo := {[ "net" := {| api.PodIP := "10.0.0.7" |} ]}.

Definition sample_Unmarshal (data : list byte) : option api.PodInfo :=
  if List.list_eq_dec Byte.byte_eq_dec data net_data then Some net_info else None.

Definition msg (id : string) (s : mesos.TaskState) (d : option (list byte))
  : mesos.TaskStatus :=
  {| mesos.TaskId := id; mesos.State := s; mesos.Data := d |}.

(** *** A stand-in for [gcfg] and [time.ParseDuration] *)

Import config.

(** A file as the list of its entries: section, key and value. *)
Definition File := list (string * string * string).

Definition sample_ParseDuration (s : string) : Z + string :=
  if decide (s = "10s") then inl (10 * Second)%Z
  else if decide (s = "5s") then inl (5 * Second)%Z
  else if decide (s = "2m") then inl (2 * Minute)%Z
  else inr "time: invalid duration".

Definition sample_ParseInt (s : string) : Z + string :=
  if decide (s = "4096") then inl 4096%Z
  else if decide (s = "2048") then inl 2048%Z
  else inr "strconv.ParseInt: invalid syntax".

Definition set_field (f : Field) (v : Z) (c : Config) : Config :=
  let d := {| Duration := v |} in
  {| OfferTTL := if f is FOfferTTL then d else OfferTTL c;
     OfferLingerTTL := if f is FOfferLingerTTL then d else OfferLingerTTL c;
     ListenerDelay := if f is FListenerDelay then d else ListenerDelay c;
     UpdatesBacklog := if f is FUpdatesBacklog then v else UpdatesBacklog c;
     FrameworkIdRefreshInterval :=
       if f is FFrameworkIdRefreshInterval then d else FrameworkIdRefreshInterval c;
     InitialImplicitReconciliationDelay :=
       if f is FInitialImplicitReconciliationDelay then d
       else InitialImplicitReconciliationDelay c;
     ExplicitReconciliationMaxBackoff :=
       if f is FExplicitReconciliationMaxBackoff then d
       else ExplicitReconciliationMaxBackoff c;
     ExplicitReconciliationAbortTimeout :=
       if f is FExplicitReconciliationAbortTimeout then d
       else ExplicitReconciliationAbortTimeout c;
     InitialPodBackoff := if f is FInitialPodBackoff then d else InitialPodBackoff c;
     MaxPodBackoff := if f is FMaxPodBackoff then d else MaxPodBackoff c;
     HttpHandlerTimeout := if f is FHttpHandlerTimeout then d else HttpHandlerTimeout c |}.

(** The value of one entry: a duration field goes through
    [UnmarshalText], the backlog through the integer parser. *)
Definition parse_value (f : Field) (value : string) : Z + string :=
  match f with
  | FUpdatesBacklog => sample_ParseInt value
  | _ =>
      match UnmarshalText sample_ParseDuration {| Duration := 0 |} value with
      | (wd, None) => inl (Duration wd)
      | (_, Some e) => inr e
      end
  end.

(** Each entry of section [scheduler] is stored in the field that
    carries the key as its tag; the first entry that cannot be stored
    ends the reading with an error. *)
Fixpoint sample_ReadInto (wrapper : ConfigWrapper) (file : File)
  : ConfigWrapper * config.error :=
  match file with
  | [] => (wrapper, None)
  | (section, key, value) :: rest =>
      if decide (section = "scheduler") then
        match List.find (fun f => bool_decide (tag f = key)) all_fields with
        | Some f =>
            match parse_value f value with
            | inl v =>
                sample_ReadInto {| Scheduler := set_field f v (Scheduler wrapper) |} rest
            | inr e => (wrapper, Some e)
            end
        | None => (wrapper, Some "can't store data")
        end
      else (wrapper, Some "invalid section")
  end.

(** The file [[scheduler] offer-ttl = 10s]. *)
Definition offer_ttl_10s : File := [("scheduler", "offer-ttl", "10s")].

End fixtures.

(** ** Notions used to state the further properties *)

Module props2.
Import scheduler props.

(** The messages that [updateStatus] ignores for a task that is in the
    tasks table with state [st]: the store is left as it is and one
    entry is logged. *)
Definition ignored (s : mesos.TaskState) (st : StateType) : bool :=
  match s, st with
  | mesos.TASK_STAGING, _ => true
  | mesos.TASK_STARTING, (StateRunning | StateFinished | StateUnknown) => true
  | mesos.TASK_RUNNING, (StateFinished | StateUnknown) => true
  | mesos.TASK_FINISHED, (StateFinished | StateUnknown) => true
  | mesos.TASK_OTHER, _ => true
  | _, _ => false
  end.

(** What [handleTaskKilled] logs when it is done: nothing out of the
    ordinary for a task marked [Deleted] (an entry at verbosity 2 only),
    an error otherwise. *)
Definition killed_log (v : nat) (deleted : bool) : list LogEntry :=
  if deleted
  then (if bool_decide (2 <= v) then [(INFO, "task killed: %+v, task %+v")] else [])
  else [(ERROR, "task killed: %+v, task %+v")].

(** What one call of [updateStatus] leaves alone: no task of the store
    appears or disappears, the fields of a task that identify it keep
    their values, no entry is added to a table, the ring keeps its
    length, and the log is only extended. *)
Definition preserved (w w' : World) : Prop :=
  (forall q, heap w' !! q = None <-> heap w !! q = None) /\
  (forall q tq tq', heap w !! q = Some tq -> heap w' !! q = Some tq' ->
     ID tq' = ID tq /\ podKey tq' = podKey tq /\ Flags tq' = Flags tq /\
     launchTime tq' = launchTime tq /\ api.Name (Pod tq') = api.Name (Pod tq)) /\
  (forall key id, podToTask (k w') !! key = Some id -> podToTask (k w) !! key = Some id) /\
  (forall id q, taskRegistry (k w') !! id = Some q -> taskRegistry (k w) !! id = Some q) /\
  length (ringValues w') = length (ringValues w) /\
  verbosity w' = verbosity w /\
  glog w `prefix_of` glog w'.

(** The outcome of [updateStatus] read off the tasks table and the
    message: a panic for RUNNING about an id that is not in the table and
    for FINISHED about a Pending task, and otherwise the task found and
    the state it has before the call. *)
Definition expected_outcome (w : World) (status : mesos.TaskStatus)
  : outcome (option loc * StateType) :=
  match taskRegistry (k w) !! mesos.TaskId status with
  | None =>
      match mesos.State status with
      | mesos.TASK_RUNNING => Panic nil_dereference
      | _ => Ret (None, StateUnknown)
      end
  | Some p =>
      match heap w !! p with
      | None => Panic nil_dereference
      | Some t =>
          match mesos.State status, State t with
          | mesos.TASK_FINISHED, StatePending =>
              Panic "Pending task finished, this couldn't happen"
          | _, _ => Ret (Some p, State t)
          end
      end
  end.

(** The consistency of the registry: an id of the tasks table is the id
    of its task; an entry of the pod table names a task of the tasks
    table that has this pod key and is not Finished; the ring holds no id
    of a task of the table that is not Finished, and holds the id of
    every Finished task of the table; the ring has an element and
    [tasksFinished] points into it. *)
Record registry_inv (w : World) : Prop := {
  inv_tasks : forall id p, taskRegistry (k w) !! id = Some p ->
    exists t, heap w !! p = Some t /\ ID t = id;
  inv_pods : forall key id, podToTask (k w) !! key = Some id ->
    exists p t, taskRegistry (k w) !! id = Some p /\ heap w !! p = Some t /\
                podKey t = key /\ State t <> StateFinished;
  inv_ring_finished : forall gid p t, Some gid ∈ ringValues w ->
    taskRegistry (k w) !! gid = Some p -> heap w !! p = Some t ->
    State t = StateFinished;
  inv_finished_ring : forall id p t, taskRegistry (k w) !! id = Some p ->
    heap w !! p = Some t -> State t = StateFinished -> Some id ∈ ringValues w;
  inv_ring : ringValues w <> [] /\ is_Some (tasksFinished (k w))
}.

End props2.

(** ** More concrete registries *)

Module fixtures2.
Import scheduler fixtures.

(** A running task in the tasks table and in the pod table. *)
Definition R1 : PodTask := mkTask "R1" "/pods/ns/r" StateRunning.
Definition w_run : World :=
  mkWorld (<[1%positive := R1]> ∅) (ring_New 3)
          (<["R1" := 1%positive]> ∅) (<["/pods/ns/r" := "R1"]> ∅).

(** A running task that the operator has marked [Deleted]. *)
Definition K1 : PodTask :=
  {| ID := "K1"; Pod := {| api.Name := "K1"; api.Status := emptyStatus |};
     State := StateRunning; Flags := [Deleted]; podKey := "/pods/ns/k";
     launchTime := 0%Z; bindTime := 0%Z; UpdatedTime := 0%Z |}.
Definition w_kill : World :=
  mkWorld (<[1%positive := K1]> ∅) (ring_New 3)
          (<["K1" := 1%positive]> ∅) (<["/pods/ns/k" := "K1"]> ∅).

(** A Pending and a Finished task in one tasks table. *)
Definition w_two : World :=
  mkWorld (<[1%positive := T1]> (<[9%positive := T9]> ∅)) (ring_New 3)
          (<["T1" := 1%positive]> (<["T9" := 9%positive]> ∅))
          (<["/pods/ns/a" := "T1"]> ∅).

(** The four finished tasks of [w_ring] with a ring of three elements
    that already holds the id B, in the element [tasksFinished] points
    at. *)
Definition w_ring_B : World :=
  mkWorld (heap w_ring) ([Some "B"; None; None], Some 0)
          (taskRegistry (k w_ring)) ∅.

(** The registry of [w_dup] after RUNNING and FINISHED for its task. *)
Definition w_done : World :=
  props.updateStatuses sample_Unmarshal
    [(1%Z, msg "T1" mesos.TASK_RUNNING None);
     (2%Z, msg "T1" mesos.TASK_FINISHED None)]
    w_dup.

End fixtures2.

(** * Properties of the registry *)

Import scheduler props.

(** ** Evaluation of the primitive steps *)

Lemma load_Some (w : World) (p : loc) (t : PodTask) :
  heap w !! p = Some t -> load (Some p) w = (Ret t, w).
Proof. intros H. unfold load, bind, get, ret. simpl. rewrite H. reflexivity. Qed.

Lemma update_Some (w : World) (p : loc) (t : PodTask) (f : PodTask -> PodTask) :
  heap w !! p = Some t ->
  update (Some p) f w = (Ret tt, set_heap (<[p := f t]> (heap w)) w).
Proof. intros H. unfold update, bind. rewrite (load_Some w p t H). reflexivity. Qed.

Lemma register_eval (w : World) (p : loc) (t : PodTask) :
  heap w !! p = Some t ->
  register (Some p) None w =
    (Ret (Some p, None),
     set_k {| taskRegistry := <[ID t := p]> (taskRegistry (k w));
              tasksFinished := tasksFinished (k w);
              podToTask := <[podKey t := ID t]> (podToTask (k w)) |} w).
Proof.
  intros H. unfold register, bind, modify_k, modify.
  rewrite (load_Some w p t H). simpl.
  rewrite load_Some with (t := t) by exact H. reflexivity.
Qed.

Lemma unregister_eval (w : World) (p : loc) (t : PodTask) :
  heap w !! p = Some t ->
  unregister (Some p) w =
    (Ret tt,
     set_k {| taskRegistry := delete (ID t) (taskRegistry (k w));
              tasksFinished := tasksFinished (k w);
              podToTask := delete (podKey t) (podToTask (k w)) |} w).
Proof.
  intros H. unfold unregister, bind, modify_k, modify.
  rewrite (load_Some w p t H). simpl.
  rewrite load_Some with (t := t) by exact H. reflexivity.
Qed.

(** ** register *)

(** C1, as the code has it: with a nil error, [register] returns the task
    and a nil error and writes both entries, whatever the tables hold: an
    entry for the task's id or for its pod key is overwritten, and nothing
    else in the store changes. *)
Theorem register_overwrites (w : World) (p : loc) (t : PodTask) :
  heap w !! p = Some t ->
  exists w',
    register (Some p) None w = (Ret (Some p, None), w') /\
    taskRegistry (k w') = <[ID t := p]> (taskRegistry (k w)) /\
    podToTask (k w') = <[podKey t := ID t]> (podToTask (k w)) /\
    heap w' = heap w /\ ringValues w' = ringValues w /\
    tasksFinished (k w') = tasksFinished (k w) /\ glog w' = glog w.
Proof.
  intros H. eexists. split; [apply (register_eval w p t H)|].
  simpl. repeat split.
Qed.

Lemma register_overwrites_witness :
  exists w',
    register (Some 2%positive) None fixtures.w_dup = (Ret (Some 2%positive, None), w') /\
    taskRegistry (k w') = <[ID fixtures.T1 := 2%positive]> (taskRegistry (k fixtures.w_dup)) /\
    podToTask (k w') = <[podKey fixtures.T1 := ID fixtures.T1]> (podToTask (k fixtures.w_dup)) /\
    heap w' = heap fixtures.w_dup /\ ringValues w' = ringValues fixtures.w_dup /\
    tasksFinished (k w') = tasksFinished (k fixtures.w_dup) /\ glog w' = glog fixtures.w_dup.
Proof. apply (register_overwrites fixtures.w_dup 2%positive fixtures.T1). reflexivity. Defined.

(** C1 as stated fails: the id "T1" and the pod key "/pods/ns/a" are in
    the tables, yet registering a second task object with that id
    returns a nil error and rebinds the id to the new object. *)
Lemma register_duplicate_not_rejected :
  heap fixtures.w_dup !! 2%positive = Some fixtures.T1 /\
  is_Some (taskRegistry (k fixtures.w_dup) !! ID fixtures.T1) /\
  is_Some (podToTask (k fixtures.w_dup) !! podKey fixtures.T1) /\
  fst (register (Some 2%positive) None fixtures.w_dup) = Ret (Some 2%positive, None) /\
  taskRegistry (k fixtures.w_dup) !! "T1" = Some 1%positive /\
  taskRegistry (k (snd (register (Some 2%positive) None fixtures.w_dup))) !! "T1"
    = Some 2%positive /\
  ~ (exists (e : string) (w' : World),
        register (Some 2%positive) None fixtures.w_dup
          = (Ret (Some 2%positive, Some e), w') /\
        taskRegistry (k w') = taskRegistry (k fixtures.w_dup) /\
        podToTask (k w') = podToTask (k fixtures.w_dup)).
Proof.
  split; [reflexivity|]. split; [eexists; reflexivity|]. split; [eexists; reflexivity|].
  split; [reflexivity|]. split; [reflexivity|]. split; [reflexivity|].
  intros (e & w' & Hreg & _).
  rewrite (register_eval fixtures.w_dup 2%positive fixtures.T1 eq_refl) in Hreg.
  discriminate Hreg.
Qed.

(** ** register, then unregister *)

Lemma register_then_unregister_eval (w : World) (p : loc) (t : PodTask) :
  heap w !! p = Some t ->
  register_then_unregister (Some p) w =
    (Ret tt,
     set_k {| taskRegistry := delete (ID t) (taskRegistry (k w));
              tasksFinished := tasksFinished (k w);
              podToTask := delete (podKey t) (podToTask (k w)) |} w).
Proof.
  intros H. unfold register_then_unregister, bind.
  rewrite (register_eval w p t H).
  rewrite (unregister_eval _ p t) by exact H.
  simpl. unfold set_k. simpl. rewrite !delete_insert_eq. reflexivity.
Qed.

(** C8, as the code has it: [register(t, nil)] followed by
    [unregister(t)] leaves the tables as they were with the keys [t.ID]
    and [t.podKey] deleted; when neither key was present before the
    call, both tables (and the whole store) are as before. *)
Theorem register_unregister_restores_fresh (w : World) (p : loc) (t : PodTask) :
  heap w !! p = Some t ->
  exists w',
    register_then_unregister (Some p) w = (Ret tt, w') /\
    taskRegistry (k w') = delete (ID t) (taskRegistry (k w)) /\
    podToTask (k w') = delete (podKey t) (podToTask (k w)) /\
    (taskRegistry (k w) !! ID t = None ->
     podToTask (k w) !! podKey t = None ->
     taskRegistry (k w') = taskRegistry (k w) /\
     podToTask (k w') = podToTask (k w) /\
     w' = w).
Proof.
  intros H. eexists. split; [apply (register_then_unregister_eval w p t H)|].
  simpl. split; [reflexivity|]. split; [reflexivity|].
  intros Hid Hkey. rewrite !delete_id by assumption.
  split; [reflexivity|]. split; [reflexivity|].
  destruct w as [h rv [tr tf pt] v g]. reflexivity.
Qed.

Lemma register_unregister_restores_fresh_witness :
  exists w',
    register_then_unregister (Some 1%positive) fixtures.w_new = (Ret tt, w') /\
    taskRegistry (k w') = delete (ID fixtures.T1) (taskRegistry (k fixtures.w_new)) /\
    podToTask (k w') = delete (podKey fixtures.T1) (podToTask (k fixtures.w_new)) /\
    (taskRegistry (k fixtures.w_new) !! ID fixtures.T1 = None ->
     podToTask (k fixtures.w_new) !! podKey fixtures.T1 = None ->
     taskRegistry (k w') = taskRegistry (k fixtures.w_new) /\
     podToTask (k w') = podToTask (k fixtures.w_new) /\
     w' = fixtures.w_new).
Proof.
  apply (register_unregister_restores_fresh fixtures.w_new 1%positive fixtures.T1).
  reflexivity.
Defined.

(** C8 as stated fails: when the task is already registered, the two
    calls end with both tables empty, not with their starting contents. *)
Lemma register_unregister_loses_existing :
  heap fixtures.w_dup !! 1%positive = Some fixtures.T1 /\
  taskRegistry (k fixtures.w_dup) !! "T1" = Some 1%positive /\
  podToTask (k fixtures.w_dup) !! "/pods/ns/a" = Some "T1" /\
  fst (register_then_unregister (Some 1%positive) fixtures.w_dup) = Ret tt /\
  taskRegistry (k (snd (register_then_unregister (Some 1%positive) fixtures.w_dup)))
    <> taskRegistry (k fixtures.w_dup) /\
  podToTask (k (snd (register_then_unregister (Some 1%positive) fixtures.w_dup)))
    <> podToTask (k fixtures.w_dup).
Proof.
  rewrite (register_then_unregister_eval fixtures.w_dup 1%positive fixtures.T1 eq_refl).
  repeat split.
  - intros E. apply (f_equal (fun m => m !! "T1")) in E. vm_compute in E. discriminate E.
  - intros E. apply (f_equal (fun m => m !! "/pods/ns/a")) in E. vm_compute in E.
    discriminate E.
Qed.

(** ** unregister *)

(** C9: [unregister(t)] deletes the entry of [podToTask] under
    [t.podKey] without looking at the task id stored there: afterwards the
    key is absent even if it was bound to the id of another task, so that
    [taskForPod] no longer finds the pod's task; every other pod key keeps
    its entry. *)
Theorem unregister_deletes_pod_entry_unconditionally (w : World) (p : loc) (t : PodTask) :
  heap w !! p = Some t ->
  exists w',
    unregister (Some p) w = (Ret tt, w') /\
    podToTask (k w') = delete (podKey t) (podToTask (k w)) /\
    taskRegistry (k w') = delete (ID t) (taskRegistry (k w)) /\
    (forall other : string,
        podToTask (k w) !! podKey t = Some other ->
        podToTask (k w') !! podKey t = None /\
        taskForPod (podKey t) w' = (Ret (EmptyString, false), w')) /\
    (forall key : string, key <> podKey t ->
        podToTask (k w') !! key = podToTask (k w) !! key).
Proof.
  intros H. eexists. split; [apply (unregister_eval w p t H)|].
  simpl. split; [reflexivity|]. split; [reflexivity|]. split.
  - intros other _. split; [apply lookup_delete_eq|].
    unfold taskForPod, bind, get, ret. simpl. rewrite lookup_delete_eq. reflexivity.
  - intros key Hne. apply lookup_delete_ne. congruence.
Qed.

(** Unregistering the stale task [T0] unlinks the pod from the live
    task [T1], which stays in the tasks table. *)
Lemma unregister_deletes_pod_entry_unconditionally_witness :
  podToTask (k fixtures.w_stale) !! podKey fixtures.T0 = Some "T1" /\
  exists w',
    unregister (Some 5%positive) fixtures.w_stale = (Ret tt, w') /\
    podToTask (k w') !! "/pods/ns/a" = None /\
    taskRegistry (k w') !! "T1" = Some 1%positive.
Proof.
  split; [reflexivity|].
  destruct (unregister_deletes_pod_entry_unconditionally
              fixtures.w_stale 5%positive fixtures.T0 eq_refl)
    as (w' & Hrun & Hpods & Htasks & Hstale & _).
  exists w'. split; [exact Hrun|]. split.
  - exact (proj1 (Hstale "T1" eq_refl)).
  - rewrite Htasks. reflexivity.
Defined.

(** ** updateStatus *)

Lemma _get_found (w : World) (taskId : string) (p : loc) (t : PodTask) :
  taskRegistry (k w) !! taskId = Some p -> heap w !! p = Some t ->
  _get taskId w = (Ret (Some p, State t), w).
Proof.
  intros Hreg Hheap. unfold _get, bind, get. simpl. rewrite Hreg.
  rewrite (load_Some w p t Hheap). reflexivity.
Qed.

Lemma _get_missing (w : World) (taskId : string) :
  taskRegistry (k w) !! taskId = None ->
  _get taskId w = (Ret (None, StateUnknown), w).
Proof. intros Hreg. unfold _get, bind, get. simpl. rewrite Hreg. reflexivity. Qed.

Ltac heap_lookup := simpl; first [eassumption | apply lookup_insert_eq].

Ltac run_steps :=
  repeat first
    [ erewrite load_Some by heap_lookup
    | erewrite update_Some by heap_lookup
    | progress simpl ].

(** C4: a FINISHED message for a task whose state is Pending makes
    [updateStatus] panic with the message of [handleTaskFinished]; the
    panic is the outcome of the call and nothing has been changed when it
    is raised. *)
Theorem pending_finished_panics (json_Unmarshal : list byte -> option api.PodInfo)
    (now : Time) (status : mesos.TaskStatus) (w : World) (p : loc) (t : PodTask) :
  mesos.State status = mesos.TASK_FINISHED ->
  taskRegistry (k w) !! mesos.TaskId status = Some p ->
  heap w !! p = Some t ->
  State t = StatePending ->
  updateStatus json_Unmarshal now status w
    = (Panic "Pending task finished, this couldn't happen", w).
Proof.
  intros Hst Hreg Hheap Hpending.
  unfold updateStatus, bind, mesos.GetState, mesos.GetTaskId_GetValue.
  rewrite (_get_found w _ p t Hreg Hheap). simpl. rewrite Hst, Hpending. reflexivity.
Qed.

Lemma pending_finished_panics_witness :
  updateStatus (fun _ => None) 7%Z
    {| mesos.TaskId := "T1"; mesos.State := mesos.TASK_FINISHED; mesos.Data := None |}
    fixtures.w_dup
  = (Panic "Pending task finished, this couldn't happen", fixtures.w_dup).
Proof.
  apply (pending_finished_panics _ _ _ fixtures.w_dup 1%positive fixtures.T1);
    reflexivity.
Defined.

(** A RUNNING message for a task id that the tasks table does not hold:
    [handleTaskRunning] reaches its last case with a nil task and evaluates
    [task.ID]. *)
Lemma running_unknown_task_panics (json_Unmarshal : list byte -> option api.PodInfo)
    (now : Time) (status : mesos.TaskStatus) (w : World) :
  mesos.State status = mesos.TASK_RUNNING ->
  taskRegistry (k w) !! mesos.TaskId status = None ->
  updateStatus json_Unmarshal now status w = (Panic nil_dereference, w).
Proof.
  intros Hst Hreg.
  unfold updateStatus, bind, mesos.GetState, mesos.GetTaskId_GetValue.
  rewrite (_get_missing w _ Hreg). simpl. rewrite Hst. reflexivity.
Qed.

(** Every message but RUNNING for an unknown task id returns the nil task
    and [StateUnknown], and adds one log entry to an otherwise unchanged
    store. *)
Lemma other_status_unknown_task_is_noop (json_Unmarshal : list byte -> option api.PodInfo)
    (now : Time) (status : mesos.TaskStatus) (w : World) :
  mesos.State status <> mesos.TASK_RUNNING ->
  taskRegistry (k w) !! mesos.TaskId status = None ->
  updateStatus json_Unmarshal now status w
    = (Ret (None, StateUnknown),
       set_glog (glog w ++ [unknown_task_log (mesos.State status)]) w).
Proof.
  intros Hst Hreg.
  unfold updateStatus, bind, mesos.GetState, mesos.GetTaskId_GetValue.
  rewrite (_get_missing w _ Hreg). simpl.
  destruct (mesos.State status); try congruence; reflexivity.
Qed.

(** C2 at a concrete input: in a new registry, a RUNNING message for the
    task id "ghost" does not return [(nil, StateUnknown)]: the call
    panics on a nil pointer. *)
Theorem running_ghost_task_panics (json_Unmarshal : list byte -> option api.PodInfo)
    (now : Time) :
  updateStatus json_Unmarshal now
    {| mesos.TaskId := "ghost"; mesos.State := mesos.TASK_RUNNING; mesos.Data := None |}
    (NewInMemoryTaskRegistry ∅ 0)
  = (Panic nil_dereference, NewInMemoryTaskRegistry ∅ 0).
Proof. apply running_unknown_task_panics; reflexivity. Qed.

(** C10: a FAILED, KILLED or LOST message for a task whose state is
    Finished returns the task and [StateFinished] and leaves the tasks
    table, the pod table, the ring (its values and the registry's pointer
    into it) and every task of the store as they were; the task is still
    in the tasks table. *)
Theorem finished_task_ignores_abnormal_status
    (json_Unmarshal : list byte -> option api.PodInfo)
    (now : Time) (status : mesos.TaskStatus) (w : World) (p : loc) (t : PodTask) :
  mesos.State status = mesos.TASK_FAILED \/
  mesos.State status = mesos.TASK_KILLED \/
  mesos.State status = mesos.TASK_LOST ->
  taskRegistry (k w) !! mesos.TaskId status = Some p ->
  heap w !! p = Some t ->
  State t = StateFinished ->
  exists w',
    updateStatus json_Unmarshal now status w = (Ret (Some p, StateFinished), w') /\
    taskRegistry (k w') = taskRegistry (k w) /\
    podToTask (k w') = podToTask (k w) /\
    tasksFinished (k w') = tasksFinished (k w) /\
    ringValues w' = ringValues w /\
    heap w' = heap w /\
    taskRegistry (k w') !! mesos.TaskId status = Some p /\
    heap w' !! p = Some t.
Proof.
  intros Hst Hreg Hheap Hfin.
  unfold updateStatus, bind, mesos.GetState, mesos.GetTaskId_GetValue.
  rewrite (_get_found w _ p t Hreg Hheap). simpl. rewrite Hfin.
  destruct Hst as [-> | [-> | ->]].
  - eexists. split; [reflexivity|]. simpl. auto 10.
  - unfold handleTaskKilled, defer, bind, ret. simpl.
    rewrite (load_Some w p t Hheap).
    destruct (Has t Deleted).
    + unfold log_V, bind, get.
      destruct (bool_decide (2 <= verbosity w)%nat);
        (eexists; split; [reflexivity|]; simpl; auto 10).
    + eexists. split; [reflexivity|]. simpl. auto 10.
  - eexists. split; [reflexivity|]. simpl. auto 10.
Qed.


Lemma finished_task_ignores_abnormal_status_witness :
  exists w',
    updateStatus fixtures.sample_Unmarshal 7%Z
      (fixtures.msg "T9" mesos.TASK_LOST None) fixtures.w_fin
      = (Ret (Some 9%positive, StateFinished), w') /\
    taskRegistry (k w') = taskRegistry (k fixtures.w_fin) /\
    podToTask (k w') = podToTask (k fixtures.w_fin) /\
    tasksFinished (k w') = tasksFinished (k fixtures.w_fin) /\
    ringValues w' = ringValues fixtures.w_fin /\
    heap w' = heap fixtures.w_fin /\
    taskRegistry (k w') !! "T9" = Some 9%positive /\
    heap w' !! 9%positive = Some fixtures.T9.
Proof.
  apply (finished_task_ignores_abnormal_status fixtures.sample_Unmarshal 7%Z
           (fixtures.msg "T9" mesos.TASK_LOST None) fixtures.w_fin 9%positive fixtures.T9).
  - right. right. reflexivity.
  - reflexivity.
  - reflexivity.
  - reflexivity.
Defined.

(** C6: a RUNNING message for a task whose state is Pending returns the
    task and [StatePending] (the state before the call), and afterwards the
    task's state is Running and its pod's phase is [PodRunning], whatever
    the data.  The tables and the ring are unchanged and no other task is
    written.  The pod's info and IP are as before when the data is nil or
    does not decode; when it decodes, the info is the decoded map, and
    the IP is assigned exactly when the map has a container "net" with a
    non-empty [PodIP] (the IP is then that address, and otherwise the one
    the pod had). *)
Theorem pending_running_transition (json_Unmarshal : list byte -> option api.PodInfo)
    (now : Time) (status : mesos.TaskStatus) (w : World) (p : loc) (t : PodTask) :
  mesos.State status = mesos.TASK_RUNNING ->
  taskRegistry (k w) !! mesos.TaskId status = Some p ->
  heap w !! p = Some t ->
  State t = StatePending ->
  exists (w' : World) (t' : PodTask),
    updateStatus json_Unmarshal now status w = (Ret (Some p, StatePending), w') /\
    heap w' = <[p := t']> (heap w) /\
    k w' = k w /\ ringValues w' = ringValues w /\
    State t' = StateRunning /\
    api.Phase (api.Status (Pod t')) = api.PodRunning /\
    ID t' = ID t /\ podKey t' = podKey t /\
    (mesos.Data status = None \/
     (exists data, mesos.Data status = Some data /\ json_Unmarshal data = None) ->
     api.Info (api.Status (Pod t')) = api.Info (api.Status (Pod t)) /\
     api.StatusPodIP (api.Status (Pod t')) = api.StatusPodIP (api.Status (Pod t))) /\
    (forall data info,
        mesos.Data status = Some data -> json_Unmarshal data = Some info ->
        api.Info (api.Status (Pod t')) = info /\
        (forall c, info !! NetContainerID = Some c -> api.PodIP c <> EmptyString ->
                   api.StatusPodIP (api.Status (Pod t')) = api.PodIP c) /\
        (info !! NetContainerID = None \/
         (exists c, info !! NetContainerID = Some c /\ api.PodIP c = EmptyString) ->
         api.StatusPodIP (api.Status (Pod t')) = api.StatusPodIP (api.Status (Pod t)))) /\
    (api.StatusPodIP (api.Status (Pod t)) = EmptyString ->
     (api.StatusPodIP (api.Status (Pod t')) <> EmptyString <->
      exists data info c,
        mesos.Data status = Some data /\ json_Unmarshal data = Some info /\
        info !! NetContainerID = Some c /\ api.PodIP c <> EmptyString)).
Proof.
  intros Hst Hreg Hheap Hpending.
  unfold updateStatus, bind, mesos.GetState, mesos.GetTaskId_GetValue.
  rewrite (_get_found w _ p t Hreg Hheap). simpl. rewrite Hst, Hpending.
  unfold handleTaskRunning, fillRunningPodInfo, bind, log, modify.
  run_steps.
  destruct (mesos.Data status) as [data|] eqn:Hdata;
    [destruct (json_Unmarshal data) as [info|] eqn:Hjson;
     [run_steps;
      destruct (info !! NetContainerID) as [c|] eqn:Hnet;
      [destruct (decide (api.PodIP c = EmptyString)) as [Hip|Hip]|]|]|];
    run_steps; rewrite !insert_insert_eq;
    (eexists _, _; split; [reflexivity|]); simpl;
    repeat (split; [reflexivity|]); naive_solver.
Qed.


(** The first scenario of the specification: RUNNING with the pod info
    of container "net" sets the state and the pod IP. *)
Lemma pending_running_transition_witness :
  exists (w' : World) (t' : PodTask),
    updateStatus fixtures.sample_Unmarshal 7%Z
      (fixtures.msg "T1" mesos.TASK_RUNNING (Some fixtures.net_data)) fixtures.w_dup
      = (Ret (Some 1%positive, StatePending), w') /\
    heap w' !! 1%positive = Some t' /\
    State t' = StateRunning /\
    api.Phase (api.Status (Pod t')) = api.PodRunning /\
    api.Info (api.Status (Pod t')) = fixtures.net_info /\
    api.StatusPodIP (api.Status (Pod t')) = "10.0.0.7".
Proof.
  destruct (pending_running_transition fixtures.sample_Unmarshal 7%Z
              (fixtures.msg "T1" mesos.TASK_RUNNING (Some fixtures.net_data))
              fixtures.w_dup 1%positive fixtures.T1
              eq_refl eq_refl eq_refl eq_refl)
    as (w' & t' & Hrun & Hheap & _ & _ & Hstate & Hphase & _ & _ & _ & Hdecoded & _).
  destruct (Hdecoded fixtures.net_data fixtures.net_info eq_refl eq_refl)
    as (Hinfo & Hip & _).
  exists w', t'. split; [exact Hrun|].
  split; [rewrite Hheap; apply lookup_insert_eq|].
  split; [exact Hstate|]. split; [exact Hphase|]. split; [exact Hinfo|].
  apply (Hip {| api.PodIP := "10.0.0.7" |}); [reflexivity | discriminate].
Defined.

(** ** No regression of the state of a task *)

Lemma state_le_refl (a : StateType) : state_le a a = true.
Proof. destruct a; reflexivity. Qed.

Lemma state_le_trans (a b c : StateType) :
  state_le a b = true -> state_le b c = true -> state_le a c = true.
Proof. destruct a, b, c; simpl; congruence. Qed.

Lemma no_regress_refl (w : World) : no_regress w w.
Proof.
  split; [|auto]. intros q tq H. exists tq. split; [exact H | apply state_le_refl].
Qed.

Lemma no_regress_trans (w1 w2 w3 : World) :
  no_regress w1 w2 -> no_regress w2 w3 -> no_regress w1 w3.
Proof.
  intros [H1 K1] [H2 K2]. split.
  - intros q tq Hq. destruct (H1 q tq Hq) as (t2 & Hq2 & Hle).
    destruct (H2 q t2 Hq2) as (t3 & Hq3 & Hle'). exists t3. split; [exact Hq3|].
    eapply state_le_trans; eassumption.
  - auto.
Qed.

(** Writing one task [p] with a state that is not lower, and deleting
    entries of the tasks table, is no regression. *)
Lemma no_regress_write (w w' : World) (p : loc) (t t' : PodTask) :
  heap w !! p = Some t ->
  heap w' = <[p := t']> (heap w) ->
  state_le (State t) (State t') = true ->
  (forall id q, taskRegistry (k w') !! id = Some q -> taskRegistry (k w) !! id = Some q) ->
  no_regress w w'.
Proof.
  intros Hp Hheap Hle Hk. split; [|exact Hk].
  intros q tq Hq. rewrite Hheap. destruct (decide (q = p)) as [->|Hne].
  - exists t'. rewrite lookup_insert_eq. split; [reflexivity|]. congruence.
  - exists tq. rewrite lookup_insert_ne by congruence. split; [exact Hq | apply state_le_refl].
Qed.

Lemma no_regress_same_heap (w w' : World) :
  heap w' = heap w ->
  (forall id q, taskRegistry (k w') !! id = Some q -> taskRegistry (k w) !! id = Some q) ->
  no_regress w w'.
Proof.
  intros Hheap Hk. split; [|exact Hk].
  intros q tq Hq. exists tq. rewrite Hheap. split; [exact Hq | apply state_le_refl].
Qed.

Lemma lookup_delete_Some_inv {V} (m : gmap string V) (i j : string) (v : V) :
  delete i m !! j = Some v -> m !! j = Some v.
Proof. rewrite lookup_delete_Some. tauto. Qed.

(** [recordFinished] writes no task and adds nothing to the tables. *)
Lemma recordFinished_frame (taskId : string) (w : World) :
  heap (snd (recordFinished taskId w)) = heap w /\
  podToTask (k (snd (recordFinished taskId w))) = podToTask (k w) /\
  (forall id q, taskRegistry (k (snd (recordFinished taskId w))) !! id = Some q ->
                taskRegistry (k w) !! id = Some q).
Proof.
  unfold recordFinished, recordFinishedTask, ring_Next, ring_Value, ring_set_Value,
    load, bind, modify_k, modify, get, ret, panic.
  simpl. repeat (case_match; simpl in *; simplify_eq);
    (split; [reflexivity|]; split; [reflexivity|]);
    eauto using lookup_delete_Some_inv.
Qed.

Ltac solve_no_regress Hheap :=
  first
    [ apply no_regress_refl
    | apply no_regress_same_heap;
        [reflexivity | simpl; eauto using lookup_delete_Some_inv]
    | eapply (no_regress_write _ _ _ _ _ Hheap);
        [ simpl; rewrite ?insert_insert_eq; reflexivity
        | simpl; try match goal with H : State _ = _ |- _ => rewrite H end;
          first [reflexivity | apply state_le_refl]
        | simpl; eauto using lookup_delete_Some_inv ] ].

Ltac split_branch json :=
  match goal with
  | |- context [bool_decide ?P] => destruct (bool_decide P)
  | |- context [Has ?t ?f] => destruct (Has t f)
  | |- context [match mesos.Data ?s with _ => _ end] => destruct (mesos.Data s)
  | |- context [json ?d] => destruct (json d)
  | |- context [?g !! NetContainerID] => destruct (g !! NetContainerID)
  | |- context [decide ?P] => destruct (decide P)
  end.

(** One call of [updateStatus], returning or panicking, is no regression. *)
Lemma updateStatus_no_regress (json_Unmarshal : list byte -> option api.PodInfo)
    (now : Time) (status : mesos.TaskStatus) (w : World) :
  no_regress w (snd (updateStatus json_Unmarshal now status w)).
Proof.
  unfold updateStatus, bind, mesos.GetState, mesos.GetTaskId_GetValue.
  destruct (taskRegistry (k w) !! mesos.TaskId status) as [p|] eqn:Hreg.
  2:{ rewrite (_get_missing w _ Hreg). simpl.
      destruct (mesos.State status); simpl; solve_no_regress Hreg. }
  destruct (heap w !! p) as [t|] eqn:Hheap.
  2:{ unfold _get, load, bind, get, panic. simpl. rewrite Hreg. simpl. rewrite Hheap.
      simpl. apply no_regress_refl. }
  rewrite (_get_found w _ p t Hreg Hheap). simpl.
  destruct (mesos.State status) eqn:Hst, (State t) eqn:Hstate;
    unfold handleTaskStaging, handleTaskStarting, handleTaskRunning,
      handleTaskFinished, handleTaskFailed, handleTaskKilled, handleTaskLost,
      fillRunningPodInfo, deleteBoth, defer, log_V, log, modify_k, modify, bind, get, ret,
      panic;
    run_steps;
    try solve [solve_no_regress Hheap].
  all: repeat (split_branch json_Unmarshal; run_steps);
    try solve [solve_no_regress Hheap].
  (* Running, FINISHED: the ring is written last *)
  all: match goal with
       | |- context [recordFinished ?id ?w2] =>
           destruct (recordFinished_frame id w2) as (Hh & _ & Hk);
           destruct (recordFinished id w2) as [[[]|msg] w3]; simpl in *;
           (eapply (no_regress_write _ _ _ _ _ Hheap);
            [ rewrite Hh, ?insert_insert_eq; reflexivity
            | simpl; rewrite Hstate; reflexivity
            | intros id' q' Hq'; apply Hk in Hq'; exact Hq' ])
       end.
Qed.

(** C7: over any sequence of calls of [updateStatus] (a call that panics
    included), a task of the tasks table never goes back in the order
    Pending < Running < Finished: its state after the calls is the state
    before or a later one, and its id is then bound to the same task or
    to none. *)
Theorem updateStatus_never_regresses (json_Unmarshal : list byte -> option api.PodInfo)
    (msgs : list (Time * mesos.TaskStatus)) (w : World)
    (id : string) (p : loc) (t : PodTask) :
  taskRegistry (k w) !! id = Some p ->
  heap w !! p = Some t ->
  exists t',
    heap (updateStatuses json_Unmarshal msgs w) !! p = Some t' /\
    state_le (State t) (State t') = true /\
    (State t = StateRunning -> State t' <> StatePending) /\
    (State t = StateFinished -> State t' = StateFinished) /\
    (taskRegistry (k (updateStatuses json_Unmarshal msgs w)) !! id = Some p \/
     taskRegistry (k (updateStatuses json_Unmarshal msgs w)) !! id = None).
Proof.
  intros Hreg Hheap.
  assert (no_regress w (updateStatuses json_Unmarshal msgs w)) as [Hmono Hk].
  { clear. revert w. induction msgs as [|[now status] rest IH]; intros w; simpl.
    - apply no_regress_refl.
    - eapply no_regress_trans; [apply updateStatus_no_regress | apply IH]. }
  destruct (Hmono p t Hheap) as (t' & Hp' & Hle).
  exists t'. split; [exact Hp'|]. split; [exact Hle|].
  split; [|split].
  - intros E. rewrite E in Hle. destruct (State t'); simpl in Hle; congruence.
  - intros E. rewrite E in Hle. destruct (State t'); simpl in Hle; congruence.
  - destruct (taskRegistry (k (updateStatuses json_Unmarshal msgs w)) !! id) as [q|] eqn:E;
      [left | right; reflexivity].
    apply Hk in E. congruence.
Qed.


(** RUNNING, FINISHED, then RUNNING and STARTING again: the task ends
    Finished. *)
Lemma updateStatus_never_regresses_witness :
  exists t',
    heap (updateStatuses fixtures.sample_Unmarshal
            [(1%Z, fixtures.msg "T1" mesos.TASK_RUNNING None);
             (2%Z, fixtures.msg "T1" mesos.TASK_FINISHED None);
             (3%Z, fixtures.msg "T1" mesos.TASK_RUNNING None);
             (4%Z, fixtures.msg "T1" mesos.TASK_STARTING None)]
            fixtures.w_dup) !! 1%positive = Some t' /\
    state_le StatePending (State t') = true.
Proof.
  destruct (updateStatus_never_regresses fixtures.sample_Unmarshal
              [(1%Z, fixtures.msg "T1" mesos.TASK_RUNNING None);
               (2%Z, fixtures.msg "T1" mesos.TASK_FINISHED None);
               (3%Z, fixtures.msg "T1" mesos.TASK_RUNNING None);
               (4%Z, fixtures.msg "T1" mesos.TASK_STARTING None)]
              fixtures.w_dup "T1" 1%positive fixtures.T1 eq_refl eq_refl)
    as (t' & Hheap & Hle & _).
  exists t'. split; [exact Hheap | exact Hle].
Defined.

(** ** The ring of finished tasks *)

Lemma rotate_lt {A} (l : list A) (s : nat) :
  s < length l -> rotate s l = drop s l ++ take s l.
Proof. intros H. unfold rotate. rewrite Nat.mod_small by exact H. reflexivity. Qed.

Lemma rotate_mod {A} (l : list A) (n : nat) :
  rotate n l = rotate (n mod length l) l.
Proof. unfold rotate. rewrite Nat.Div0.mod_mod. reflexivity. Qed.

(** Overwriting slot [s] and moving on by one drops the head of the view
    and appends the new value. *)
Lemma rotate_overwrite {A} (l : list A) (s : nat) (x v : A) :
  l !! s = Some x ->
  rotate s l = x :: (drop (S s) l ++ take s l) /\
  rotate (S s) (<[s := v]> l) = (drop (S s) l ++ take s l) ++ [v].
Proof.
  intros Hx. assert (s < length l) as Hlt by (eapply lookup_lt_Some; exact Hx).
  split.
  - rewrite rotate_lt by exact Hlt. rewrite (drop_S l x s Hx). reflexivity.
  - assert (take (S s) (<[s := v]> l) = take s l ++ [v]) as Htake.
    { rewrite (take_S_r _ _ v) by (apply list_lookup_insert_eq; exact Hlt).
      rewrite take_insert_ge by lia. reflexivity. }
    destruct (decide (S s < length l)) as [Hlt'|Hge].
    + rewrite rotate_lt by (rewrite length_insert; exact Hlt').
      rewrite drop_insert_lt by lia. rewrite Htake, app_assoc. reflexivity.
    + assert (length l = S s) as Hlen by lia.
      unfold rotate. rewrite length_insert, Hlen, Nat.Div0.mod_same.
      rewrite drop_0, take_0, app_nil_r, (drop_ge l (S s)) by lia. simpl.
      rewrite <- Htake. rewrite take_ge by (rewrite length_insert; lia).
      reflexivity.
Qed.

Lemma ringView_cons (w : World) (x : option string) (xs : list (option string)) :
  ringView w = x :: xs ->
  exists i, tasksFinished (k w) = Some i /\
            ringValues w !! (S i mod length (ringValues w)) = Some x /\
            xs = drop (S (S i mod length (ringValues w))) (ringValues w)
                 ++ take (S i mod length (ringValues w)) (ringValues w).
Proof.
  unfold ringView. destruct (tasksFinished (k w)) as [i|]; [|discriminate].
  intros Hview. exists i. split; [reflexivity|].
  assert (ringValues w <> []) as Hne.
  { intros E. rewrite E in Hview. discriminate Hview. }
  assert (S i mod length (ringValues w) < length (ringValues w)) as Hlt.
  { apply Nat.mod_upper_bound. destruct (ringValues w); [congruence | simpl; lia]. }
  destruct (lookup_lt_is_Some_2 _ _ Hlt) as [y Hy].
  rewrite rotate_mod in Hview.
  destruct (rotate_overwrite _ _ y y Hy) as [Hrot _].
  rewrite Hrot in Hview. inversion Hview; subst. split; [exact Hy | reflexivity].
Qed.

(** One [recordFinished]: the head of the view is overwritten and the id
    comes last; the only entry that can leave the tasks table is the one
    of the id that the head held. *)
Lemma recordFinished_step (taskId : string) (w : World)
    (x : option string) (xs : list (option string)) :
  ringView w = x :: xs ->
  no_dangling w ->
  exists w',
    recordFinished taskId w = (Ret tt, w') /\
    ringView w' = xs ++ [Some taskId] /\
    heap w' = heap w /\
    podToTask (k w') = podToTask (k w) /\
    (forall id, x <> Some id -> taskRegistry (k w') !! id = taskRegistry (k w) !! id) /\
    (forall id, x = Some id -> finished_in_tasks w id ->
                taskRegistry (k w') !! id = None) /\
    (forall id q, taskRegistry (k w') !! id = Some q ->
                  taskRegistry (k w) !! id = Some q).
Proof.
  intros Hview Hwf.
  destruct (ringView_cons w _ _ Hview) as (i & Hi & Hslot & ->).
  unfold recordFinished, recordFinishedTask, ring_Next, ring_Value, ring_set_Value,
    modify_k, modify, bind, get, ret.
  simpl. rewrite Hi. simpl. rewrite Hslot. simpl.
  destruct x as [g|]; simpl.
  - destruct (taskRegistry (k w) !! g) as [p|] eqn:Hg; simpl.
    + destruct (Hwf g p Hg) as [t Ht]. rewrite (load_Some w p t Ht).
      destruct (decide (State t = StateFinished)) as [Hfin|Hfin]; simpl;
        rewrite Hslot; simpl;
        (eexists; split; [reflexivity|]; unfold ringView; simpl;
         split; [apply (rotate_overwrite _ _ (Some g) (Some taskId) Hslot)|];
         split; [reflexivity|]; split; [reflexivity|]).
      * split; [|split].
        -- intros id Hne. apply lookup_delete_ne. congruence.
        -- intros id [= ->] _. apply lookup_delete_eq.
        -- intros id q. apply lookup_delete_Some_inv.
      * split; [|split]; [reflexivity | | auto].
        intros id [= ->] (p' & t' & Hp' & Ht' & Hf'). congruence.
    + rewrite Hslot. simpl.
      eexists. split; [reflexivity|]. unfold ringView. simpl.
      split; [apply (rotate_overwrite _ _ (Some g) (Some taskId) Hslot)|].
      split; [reflexivity|]. split; [reflexivity|].
      split; [|split]; [reflexivity | | auto].
      intros id [= ->] _. exact Hg.
  - rewrite Hslot. simpl.
    eexists. split; [reflexivity|]. unfold ringView. simpl.
    split; [apply (rotate_overwrite _ _ None (Some taskId) Hslot)|].
    split; [reflexivity|]. split; [reflexivity|].
    split; [|split]; [reflexivity | discriminate | auto].
Qed.

Lemma recordFinishedAll_app (ids1 ids2 : list string) (w : World) :
  recordFinishedAll (ids1 ++ ids2) w
  = (_ <- recordFinishedAll ids1 ;; recordFinishedAll ids2) w.
Proof.
  revert w. induction ids1 as [|id rest IH]; intros w; simpl.
  - reflexivity.
  - unfold bind in *. destruct (recordFinished id w) as [[[]|msg] w1];
      [apply IH | reflexivity].
Qed.

(** Recording no more ids than the ring has slots: the ids take the
    place of the first slots of the view, and an entry of the tasks table
    whose id was in none of these slots is as before. *)
Lemma recordFinishedAll_steps (ids : list string) :
  forall (w : World) (V : list (option string)),
    ringView w = V ->
    length ids <= length V ->
    no_dangling w ->
    exists w',
      recordFinishedAll ids w = (Ret tt, w') /\
      ringView w' = drop (length ids) V ++ (Some <$> ids) /\
      heap w' = heap w /\
      podToTask (k w') = podToTask (k w) /\
      (forall id, Some id ∉ take (length ids) V ->
                  taskRegistry (k w') !! id = taskRegistry (k w) !! id) /\
      (forall id q, taskRegistry (k w') !! id = Some q ->
                    taskRegistry (k w) !! id = Some q).
Proof.
  induction ids as [|a rest IH]; intros w V Hview Hlen Hwf; simpl in *.
  - exists w. rewrite drop_0, app_nil_r. auto 10.
  - destruct V as [|x xs]; simpl in Hlen; [lia|].
    destruct (recordFinished_step a w x xs Hview Hwf)
      as (w1 & Hrun & Hview1 & Hh & Hp & Hkeep & _ & Hdel).
    assert (no_dangling w1) as Hwf1.
    { intros id q Hq. rewrite Hh. apply (Hwf id q). apply Hdel. exact Hq. }
    destruct (IH w1 (xs ++ [Some a]) Hview1) as (w2 & Hrun2 & Hview2 & Hh2 & Hp2 & Hkeep2 & Hdel2);
      [rewrite length_app; simpl; lia | exact Hwf1 |].
    exists w2. unfold bind. rewrite Hrun. split; [exact Hrun2|].
    split.
    { rewrite Hview2. rewrite drop_app_le by lia. rewrite <- app_assoc. reflexivity. }
    split; [congruence|]. split; [congruence|]. split.
    + intros id Hid. apply not_elem_of_cons in Hid as [Hx Hxs].
      rewrite Hkeep2 by (rewrite take_app_le by lia; exact Hxs).
      apply Hkeep. congruence.
    + auto.
Qed.

(** An id leaves the tasks table in a [recordFinished] exactly when the
    slot that is overwritten holds it and its task is in the table with
    state Finished. *)
Lemma recordFinished_removes_iff (taskId gid : string) (w : World) :
  is_Some (taskRegistry (k w) !! gid) /\
  taskRegistry (k (snd (recordFinished taskId w))) !! gid = None
  <-> next_slot_holds w gid /\ finished_in_tasks w gid.
Proof.
  unfold next_slot_holds, finished_in_tasks.
  unfold recordFinished, recordFinishedTask, ring_Next, ring_Value, ring_set_Value,
    load, modify_k, modify, bind, get, ret, panic. simpl.
  destruct (tasksFinished (k w)) as [i|]; simpl.
  2:{ split; [intros [[q Hq] Hn]; congruence | intros [(i & Hi & _) _]; discriminate]. }
  destruct (ringValues w !! (S i mod length (ringValues w))) as [v|] eqn:Hslot; simpl.
  2:{ split; [intros [[q Hq] Hn]; congruence|].
      intros [(i' & Hi & Hv) _]. congruence. }
  destruct v as [g|]; simpl.
  2:{ rewrite Hslot. simpl.
      split; [intros [[q Hq] Hn]; congruence|].
      intros [(i' & Hi & Hv) _]. congruence. }
  destruct (taskRegistry (k w) !! g) as [p|] eqn:Hg; simpl.
  2:{ rewrite Hslot. simpl.
      split; [intros [[q Hq] Hn]; congruence|].
      intros [(i' & Hi & Hv) (p & t & Hp & _)].
      assert (g = gid) by congruence. subst. congruence. }
  destruct (heap w !! p) as [t|] eqn:Hp; simpl.
  2:{ split; [intros [[q Hq] Hn]; congruence|].
      intros [(i' & Hi & Hv) (p' & t & Hp' & Ht & _)].
      assert (g = gid) by congruence. subst. congruence. }
  destruct (decide (State t = StateFinished)) as [Hfin|Hfin]; simpl;
    rewrite Hslot; simpl.
  - split.
    + intros [[q Hq] Hn]. destruct (decide (g = gid)) as [->|Hne].
      * split; [exists i; auto | exists p, t; auto].
      * rewrite lookup_delete_ne in Hn by exact Hne. congruence.
    + intros [(i' & Hi & Hv) (p' & t' & Hp' & _)].
      assert (g = gid) by congruence. subst.
      split; [eexists; eassumption | apply lookup_delete_eq].
  - split; [intros [[q Hq] Hn]; congruence|].
    intros [(i' & Hi & Hv) (p' & t' & Hp' & Ht' & Hf)].
    assert (g = gid) by congruence. subst. congruence.
Qed.

(** C5: take a ring of [c] elements and [c + 1] distinct ids, each of a
    task that is in the tasks table with state Finished.
    [recordFinished] for these ids, first to last, returns; afterwards the
    first id is not in the tasks table, and each of the last [c] ids that
    the ring did not hold at the start (a new ring holds none) has its
    entry as it was; the pod table and the tasks themselves are not
    written.  And in any [recordFinished], an id leaves the tasks table
    exactly when the overwritten slot held it and its task was in the
    table with state Finished. *)
Theorem ring_ages_out_first_finished :
  (forall (c i : nat) (first : string) (others : list string) (w : World),
      0 < c ->
      length (ringValues w) = c ->
      tasksFinished (k w) = Some i ->
      no_dangling w ->
      length others = c ->
      NoDup (first :: others) ->
      (forall id, id ∈ first :: others -> finished_in_tasks w id) ->
      exists w',
        recordFinishedAll (first :: others) w = (Ret tt, w') /\
        taskRegistry (k w') !! first = None /\
        (forall id, id ∈ others -> Some id ∉ ringValues w ->
           is_Some (taskRegistry (k w') !! id) /\
           taskRegistry (k w') !! id = taskRegistry (k w) !! id) /\
        podToTask (k w') = podToTask (k w) /\
        heap w' = heap w) /\
  (forall (taskId gid : string) (w : World),
      is_Some (taskRegistry (k w) !! gid) /\
      taskRegistry (k (snd (recordFinished taskId w))) !! gid = None
      <-> next_slot_holds w gid /\ finished_in_tasks w gid).
Proof.
  split; [|apply recordFinished_removes_iff].
  intros c i first others w Hc Hvals Hi Hwf Hlen Hnodup Hfin.
  assert (length (ringView w) = c) as HlenV.
  { unfold ringView. rewrite Hi, length_rotate. exact Hvals. }
  assert (forall id, Some id ∉ ringValues w -> Some id ∉ ringView w) as HfreshV.
  { intros id Hid. unfold ringView. rewrite Hi, elem_of_rotate. exact Hid. }
  (* the last id is the one that overwrites the slot of the first *)
  destruct others as [|o os _] using rev_ind; [simpl in Hlen; lia|].
  rewrite length_app in Hlen. simpl in Hlen.
  destruct (recordFinishedAll_steps (first :: os) w (ringView w) eq_refl)
    as (w1 & Hrun1 & Hview1 & Hh1 & Hp1 & Hkeep1 & Hdel1);
    [simpl; lia | exact Hwf |].
  rewrite drop_ge in Hview1 by (simpl; lia). simpl in Hview1.
  assert (no_dangling w1) as Hwf1.
  { intros id q Hq. rewrite Hh1. apply (Hwf id q). apply Hdel1. exact Hq. }
  destruct (recordFinished_step o w1 _ _ Hview1 Hwf1)
    as (w2 & Hrun2 & _ & Hh2 & Hp2 & Hkeep2 & Hevict2 & Hdel2).
  exists w2.
  split.
  { change (first :: os ++ [o]) with ((first :: os) ++ [o]).
    rewrite recordFinishedAll_app. unfold bind at 1. rewrite Hrun1.
    simpl. unfold bind. rewrite Hrun2. reflexivity. }
  split.
  { destruct (taskRegistry (k w1) !! first) as [q|] eqn:Hq.
    - apply Hevict2; [reflexivity|].
      destruct (Hfin first) as (p & t & Hreg & Hheap & Hstate); [left|].
      exists p, t. rewrite Hh1. pose proof (Hdel1 _ _ Hq) as Hq0.
      split; [congruence | auto].
    - destruct (taskRegistry (k w2) !! first) as [q|] eqn:Hq2; [|reflexivity].
      apply Hdel2 in Hq2. congruence. }
  split; [|split; congruence].
  intros id Hid Hfresh.
  assert (first <> id) as Hne.
  { intros ->. apply NoDup_cons in Hnodup. tauto. }
  assert (taskRegistry (k w2) !! id = taskRegistry (k w) !! id) as Heq.
  { rewrite Hkeep2 by congruence. apply Hkeep1.
    rewrite take_ge by (simpl; lia). apply HfreshV, Hfresh. }
  split; [|exact Heq]. rewrite Heq.
  destruct (Hfin id) as (q & _ & Hq & _); [right; exact Hid|]. eauto.
Qed.

(** The second scenario of the specification: with a ring of three
    elements, recording A, B, C and D removes A from the tasks table and
    keeps B, C and D. *)
Lemma ring_ages_out_first_finished_witness :
  exists w',
    recordFinishedAll ["A"; "B"; "C"; "D"] fixtures.w_ring = (Ret tt, w') /\
    taskRegistry (k w') !! "A" = None /\
    taskRegistry (k w') !! "B" = Some 2%positive /\
    taskRegistry (k w') !! "C" = Some 3%positive /\
    taskRegistry (k w') !! "D" = Some 4%positive.
Proof.
  destruct (proj1 ring_ages_out_first_finished 3 0 "A" ["B"; "C"; "D"] fixtures.w_ring)
    as (w' & Hrun & Hfirst & Hothers & _).
  - lia.
  - reflexivity.
  - reflexivity.
  - apply (bool_decide_unpack _). vm_compute. exact I.
  - reflexivity.
  - apply (bool_decide_unpack _). vm_compute. exact I.
  - intros id Hid. rewrite !elem_of_cons in Hid.
    destruct Hid as [->|[->|[->|[->|Hid]]]];
      [eexists _, _; repeat split; reflexivity ..|].
    apply elem_of_nil in Hid. destruct Hid.
  - exists w'. split; [exact Hrun|]. split; [exact Hfirst|].
    split; [|split].
    + rewrite (proj2 (Hothers "B" ltac:(set_solver) ltac:(set_solver))). reflexivity.
    + rewrite (proj2 (Hothers "C" ltac:(set_solver) ltac:(set_solver))). reflexivity.
    + rewrite (proj2 (Hothers "D" ltac:(set_solver) ltac:(set_solver))). reflexivity.
Defined.

(** C5 as stated fails for a ring that already holds one of the later
    ids: the ring has three elements, A, B, C and D are four distinct ids
    of Finished tasks of the tasks table, and the ring holds B; recording
    A, B, C and D returns and removes A, but B, one of the last three
    ids, has left the tasks table too, evicted when C overwrote the slot
    that held B. *)
Lemma ring_holding_later_id_evicts_it :
  length (ringValues fixtures2.w_ring_B) = 3 /\
  NoDup ["A"; "B"; "C"; "D"] /\
  (forall id, id ∈ ["A"; "B"; "C"; "D"] -> finished_in_tasks fixtures2.w_ring_B id) /\
  fst (recordFinishedAll ["A"; "B"; "C"; "D"] fixtures2.w_ring_B) = Ret tt /\
  taskRegistry (k (snd (recordFinishedAll ["A"; "B"; "C"; "D"] fixtures2.w_ring_B)))
    !! "A" = None /\
  "B" ∈ ["B"; "C"; "D"] /\
  taskRegistry (k fixtures2.w_ring_B) !! "B" = Some 2%positive /\
  taskRegistry (k (snd (recordFinishedAll ["A"; "B"; "C"; "D"] fixtures2.w_ring_B)))
    !! "B" = None.
Proof.
  split; [reflexivity|].
  split; [apply (bool_decide_unpack _); vm_compute; exact I|].
  split.
  { intros id Hid. rewrite !elem_of_cons in Hid.
    destruct Hid as [->|[->|[->|[->|Hid]]]];
      [eexists _, _; repeat split; reflexivity ..|].
    apply elem_of_nil in Hid. destruct Hid. }
  split; [reflexivity|]. split; [reflexivity|].
  split; [apply list_elem_of_here|]. split; reflexivity.
Qed.

(** * Properties of the configuration *)

(** [Read] never writes the receiver, whatever the reader and whatever
    [gcfg.ReadInto] stores in the wrapper. *)
Lemma Read_leaves_receiver (Reader : Type)
    (gcfg_ReadInto : config.ConfigWrapper -> Reader -> config.ConfigWrapper * config.error)
    (c : config.Config) (configReader : option Reader) :
  config.receiver (config.Read Reader gcfg_ReadInto c configReader) = c.
Proof.
  unfold config.Read. destruct configReader as [r|]; [|reflexivity].
  destruct (gcfg_ReadInto _ r) as [wrapper1 [e|]]; reflexivity.
Qed.

(** The tags of the two explicit-reconciliation fields are not the
    kebab-case of the field names: they are spelt with "reconciliantion". *)
Lemma reconciliation_tags_misspelt :
  config.tag config.FExplicitReconciliationMaxBackoff
    <> "explicit-reconciliation-max-backoff" /\
  config.tag config.FExplicitReconciliationAbortTimeout
    <> "explicit-reconciliation-abort-timeout".
Proof. split; discriminate. Qed.

(** C3 at a concrete input: reading a file whose section [scheduler]
    sets [offer-ttl] to 10s into a defaulted [Config] returns no error and
    stores 10s in the local wrapper, and the [Config] still holds the
    default of 5s, as every other field does. *)
Theorem Read_discards_override :
  let r := config.Read fixtures.File fixtures.sample_ReadInto
             config.CreateDefaultConfig (Some fixtures.offer_ttl_10s) in
  config.err r = None /\
  config.field_value config.FOfferTTL (config.Scheduler (config.wrapper r))
    = (10 * config.Second)%Z /\
  config.field_value config.FOfferTTL (config.receiver r) = (5 * config.Second)%Z /\
  config.receiver r = config.CreateDefaultConfig.
Proof. vm_compute. repeat split. Qed.

(** * Further properties of the registry *)

Import props2.

(** ** register, unregister and the lookups *)

(** The error gate of [register] and the nil task: with a non-nil error
    [register] returns the task and the error as given and writes
    nothing, without reading the task, so that a nil task is accepted;
    with a nil error [register], like [unregister], reads the task first
    and panics on a nil task with the store as it was. *)
Theorem register_error_gate :
  (forall (task : option loc) (e : string) (w : World),
      register task (Some e) w = (Ret (task, Some e), w)) /\
  (forall w : World, register None None w = (Panic nil_dereference, w)) /\
  (forall w : World, unregister None w = (Panic nil_dereference, w)).
Proof. split; [|split]; reflexivity. Qed.

Lemma get_eval_found (w : World) (taskId : string) (p : loc) (t : PodTask) :
  taskRegistry (k w) !! taskId = Some p -> heap w !! p = Some t ->
  get_ taskId w = (Ret (Some p, State t), w).
Proof. apply _get_found. Qed.

Lemma _get_eval (w : World) (taskId : string) :
  _get taskId w =
    (match taskRegistry (k w) !! taskId with
     | Some p => match heap w !! p with
                 | Some t => Ret (Some p, State t)
                 | None => Panic nil_dereference
                 end
     | None => Ret (None, StateUnknown)
     end, w).
Proof.
  unfold _get, load, bind, get, ret, panic. simpl.
  destruct (taskRegistry (k w) !! taskId) as [p|]; [|reflexivity].
  simpl. destruct (heap w !! p); reflexivity.
Qed.

Lemma taskForPod_eval (w : World) (podID : string) :
  taskForPod podID w =
    (Ret (match podToTask (k w) !! podID with
          | Some taskID => (taskID, true)
          | None => (EmptyString, false)
          end), w).
Proof.
  unfold taskForPod, bind, get, ret. simpl.
  destruct (podToTask (k w) !! podID); reflexivity.
Qed.

(** After [register(t, nil)], [get(t.ID)] returns [t] with its state and
    [taskForPod(t.podKey)] returns [t.ID]; for every other task id and
    every other pod key the two lookups answer as before the call. *)
Theorem register_then_lookup (w : World) (p : loc) (t : PodTask) :
  heap w !! p = Some t ->
  exists w',
    register (Some p) None w = (Ret (Some p, None), w') /\
    get_ (ID t) w' = (Ret (Some p, State t), w') /\
    taskForPod (podKey t) w' = (Ret (ID t, true), w') /\
    (forall id, id <> ID t -> fst (get_ id w') = fst (get_ id w)) /\
    (forall key, key <> podKey t -> fst (taskForPod key w') = fst (taskForPod key w)).
Proof.
  intros H. eexists. split; [apply (register_eval w p t H)|].
  split; [|split; [|split]].
  - apply get_eval_found; simpl; [apply lookup_insert_eq | exact H].
  - rewrite taskForPod_eval. simpl. rewrite lookup_insert_eq. reflexivity.
  - intros id Hne. unfold get_. rewrite !_get_eval. simpl.
    rewrite lookup_insert_ne by congruence. reflexivity.
  - intros key Hne. rewrite !taskForPod_eval. simpl.
    rewrite lookup_insert_ne by congruence. reflexivity.
Qed.

Lemma register_then_lookup_witness :
  exists w',
    register (Some 1%positive) None fixtures.w_new = (Ret (Some 1%positive, None), w') /\
    get_ "T1" w' = (Ret (Some 1%positive, StatePending), w') /\
    taskForPod "/pods/ns/a" w' = (Ret ("T1", true), w').
Proof.
  destruct (register_then_lookup fixtures.w_new 1%positive fixtures.T1 eq_refl)
    as (w' & Hreg & Hget & Hpod & _).
  exists w'. split; [exact Hreg|]. split; [exact Hget | exact Hpod].
Defined.

(** After [unregister(t)], [get(t.ID)] returns the nil task with
    [StateUnknown] and [taskForPod(t.podKey)] finds nothing; for every
    other task id and every other pod key the two lookups answer as
    before the call. *)
Theorem unregister_then_lookup (w : World) (p : loc) (t : PodTask) :
  heap w !! p = Some t ->
  exists w',
    unregister (Some p) w = (Ret tt, w') /\
    get_ (ID t) w' = (Ret (None, StateUnknown), w') /\
    taskForPod (podKey t) w' = (Ret (EmptyString, false), w') /\
    (forall id, id <> ID t -> fst (get_ id w') = fst (get_ id w)) /\
    (forall key, key <> podKey t -> fst (taskForPod key w') = fst (taskForPod key w)).
Proof.
  intros H. eexists. split; [apply (unregister_eval w p t H)|].
  split; [|split; [|split]].
  - apply _get_missing. simpl. apply lookup_delete_eq.
  - rewrite taskForPod_eval. simpl. rewrite lookup_delete_eq. reflexivity.
  - intros id Hne. unfold get_. rewrite !_get_eval. simpl.
    rewrite lookup_delete_ne by congruence. reflexivity.
  - intros key Hne. rewrite !taskForPod_eval. simpl.
    rewrite lookup_delete_ne by congruence. reflexivity.
Qed.

Lemma unregister_then_lookup_witness :
  exists w',
    unregister (Some 1%positive) fixtures.w_dup = (Ret tt, w') /\
    get_ "T1" w' = (Ret (None, StateUnknown), w') /\
    taskForPod "/pods/ns/a" w' = (Ret (EmptyString, false), w').
Proof.
  destruct (unregister_then_lookup fixtures.w_dup 1%positive fixtures.T1 eq_refl)
    as (w' & Hun & Hget & Hpod & _).
  exists w'. split; [exact Hun|]. split; [exact Hget | exact Hpod].
Defined.

(** [unregister] is idempotent: a second [unregister(t)] leaves the store
    as the first one left it; and when neither [t.ID] nor [t.podKey] is in
    its table, [unregister(t)] returns with the store unchanged. *)
Theorem unregister_idempotent (w : World) (p : loc) (t : PodTask) :
  heap w !! p = Some t ->
  exists w',
    unregister (Some p) w = (Ret tt, w') /\
    unregister (Some p) w' = (Ret tt, w') /\
    (taskRegistry (k w) !! ID t = None -> podToTask (k w) !! podKey t = None -> w' = w).
Proof.
  intros H. eexists. split; [apply (unregister_eval w p t H)|]. split.
  - rewrite (unregister_eval _ p t) by exact H. unfold set_k. simpl.
    rewrite !delete_delete_eq. reflexivity.
  - intros Hid Hkey. rewrite !delete_id by assumption.
    destruct w as [h rv [tr tf pt] v g]. reflexivity.
Qed.

Lemma unregister_idempotent_witness :
  exists w',
    unregister (Some 1%positive) fixtures.w_dup = (Ret tt, w') /\
    unregister (Some 1%positive) w' = (Ret tt, w').
Proof.
  destruct (unregister_idempotent fixtures.w_dup 1%positive fixtures.T1 eq_refl)
    as (w' & H1 & H2 & _).
  exists w'. split; [exact H1 | exact H2].
Defined.

(** ** The transitions of updateStatus *)


Lemma updateStatus_found (json_Unmarshal : list byte -> option api.PodInfo)
    (now : Time) (status : mesos.TaskStatus) (w : World) (p : loc) (t : PodTask) :
  taskRegistry (k w) !! mesos.TaskId status = Some p ->
  heap w !! p = Some t ->
  updateStatus json_Unmarshal now status w =
    (_ <- match mesos.State status with
          | mesos.TASK_STAGING => handleTaskStaging (Some p) (State t) status
          | mesos.TASK_STARTING => handleTaskStarting now (Some p) (State t) status
          | mesos.TASK_RUNNING =>
              handleTaskRunning json_Unmarshal now (Some p) (State t) status
          | mesos.TASK_FINISHED => handleTaskFinished now (Some p) (State t) status
          | mesos.TASK_FAILED => handleTaskFailed (Some p) (State t) status
          | mesos.TASK_KILLED => handleTaskKilled (Some p) (State t) status
          | mesos.TASK_LOST => handleTaskLost (Some p) (State t) status
          | mesos.TASK_OTHER => log WARNING "unhandled task status update: %+v"
          end ;;
     ret (Some p, State t)) w.
Proof.
  intros Hreg Hheap.
  unfold updateStatus, mesos.GetState, mesos.GetTaskId_GetValue.
  unfold bind at 1. rewrite (_get_found w _ p t Hreg Hheap). reflexivity.
Qed.

Ltac unfold_handlers :=
  unfold handleTaskStaging, handleTaskStarting, handleTaskRunning,
    handleTaskFinished, handleTaskFailed, handleTaskKilled, handleTaskLost,
    fillRunningPodInfo, deleteBoth, defer, log_V, log, modify_k, modify, bind, get, ret,
    panic.

(** A message for a task id that is not in the tasks table, RUNNING
    apart, returns the nil task and [StateUnknown] and adds one log entry
    to a store that is otherwise unchanged: an error for STAGING, FAILED
    and KILLED, a warning for the others. *)
Theorem status_for_unknown_task_only_logs
    (json_Unmarshal : list byte -> option api.PodInfo)
    (now : Time) (status : mesos.TaskStatus) (w : World) :
  mesos.State status <> mesos.TASK_RUNNING ->
  taskRegistry (k w) !! mesos.TaskId status = None ->
  updateStatus json_Unmarshal now status w
    = (Ret (None, StateUnknown),
       set_glog (glog w ++ [unknown_task_log (mesos.State status)]) w) /\
  (fst (unknown_task_log (mesos.State status)) = ERROR <->
   mesos.State status = mesos.TASK_STAGING \/
   mesos.State status = mesos.TASK_FAILED \/
   mesos.State status = mesos.TASK_KILLED).
Proof.
  intros Hst Hreg. split; [apply other_status_unknown_task_is_noop; assumption|].
  destruct (mesos.State status); simpl; split; intros H;
    try discriminate; try tauto; try (destruct H as [H|[H|H]]; discriminate).
Qed.

Lemma status_for_unknown_task_only_logs_witness :
  updateStatus fixtures.sample_Unmarshal 7%Z
    (fixtures.msg "ghost" mesos.TASK_LOST None) fixtures.w_dup
  = (Ret (None, StateUnknown),
     set_glog [(WARNING, "task lost: %+v")] fixtures.w_dup).
Proof.
  apply (status_for_unknown_task_only_logs fixtures.sample_Unmarshal 7%Z
           (fixtures.msg "ghost" mesos.TASK_LOST None) fixtures.w_dup).
  - discriminate.
  - reflexivity.
Defined.

(** A message that is ignored for a task of the tasks table (STAGING and
    a state outside the seven, always; STARTING unless the task is
    Pending; RUNNING and FINISHED for a task that is Finished or whose
    state field is [StateUnknown]) returns the task and its state and logs
    one entry, an error for STAGING and a warning otherwise; tables, ring
    and tasks are unchanged. *)
Theorem ignored_status_only_logs (json_Unmarshal : list byte -> option api.PodInfo)
    (now : Time) (status : mesos.TaskStatus) (w : World) (p : loc) (t : PodTask) :
  taskRegistry (k w) !! mesos.TaskId status = Some p ->
  heap w !! p = Some t ->
  ignored (mesos.State status) (State t) = true ->
  exists entry,
    updateStatus json_Unmarshal now status w
      = (Ret (Some p, State t), set_glog (glog w ++ [entry]) w) /\
    fst entry = match mesos.State status with
                | mesos.TASK_STAGING => ERROR
                | _ => WARNING
                end.
Proof.
  intros Hreg Hheap Hign.
  rewrite (updateStatus_found _ _ _ _ p t Hreg Hheap).
  destruct (mesos.State status), (State t); try discriminate Hign;
    unfold_handlers; run_steps; eexists; split; reflexivity.
Qed.

Lemma ignored_status_only_logs_witness :
  exists entry,
    updateStatus fixtures.sample_Unmarshal 7%Z
      (fixtures.msg "T9" mesos.TASK_RUNNING None) fixtures.w_fin
      = (Ret (Some 9%positive, StateFinished), set_glog [entry] fixtures.w_fin) /\
    fst entry = WARNING.
Proof.
  apply (ignored_status_only_logs fixtures.sample_Unmarshal 7%Z
           (fixtures.msg "T9" mesos.TASK_RUNNING None) fixtures.w_fin
           9%positive fixtures.T9); reflexivity.
Defined.

(** STARTING for a Pending task sets [UpdatedTime] and [bindTime] to the
    current time and nothing else: the task stays Pending, its other
    fields, the tables and the ring are unchanged. *)
Theorem starting_pending_binds (json_Unmarshal : list byte -> option api.PodInfo)
    (now : Time) (status : mesos.TaskStatus) (w : World) (p : loc) (t : PodTask) :
  mesos.State status = mesos.TASK_STARTING ->
  taskRegistry (k w) !! mesos.TaskId status = Some p ->
  heap w !! p = Some t ->
  State t = StatePending ->
  exists w',
    updateStatus json_Unmarshal now status w = (Ret (Some p, StatePending), w') /\
    heap w' = <[p := set_bindTime now (set_UpdatedTime now t)]> (heap w) /\
    k w' = k w /\ ringValues w' = ringValues w /\
    State (set_bindTime now (set_UpdatedTime now t)) = StatePending.
Proof.
  intros Hst Hreg Hheap Hpending.
  rewrite (updateStatus_found _ _ _ _ p t Hreg Hheap). rewrite Hst, Hpending.
  unfold_handlers; run_steps.
  destruct (bool_decide (1 <= verbosity w)%nat); simpl;
    rewrite insert_insert_eq; (eexists; split; [reflexivity|]); simpl; auto.
Qed.

Lemma starting_pending_binds_witness :
  exists w',
    updateStatus fixtures.sample_Unmarshal 7%Z
      (fixtures.msg "T1" mesos.TASK_STARTING None) fixtures.w_dup
      = (Ret (Some 1%positive, StatePending), w') /\
    heap w' !! 1%positive = Some (set_bindTime 7%Z (set_UpdatedTime 7%Z fixtures.T1)).
Proof.
  destruct (starting_pending_binds fixtures.sample_Unmarshal 7%Z
              (fixtures.msg "T1" mesos.TASK_STARTING None) fixtures.w_dup
              1%positive fixtures.T1 eq_refl eq_refl eq_refl eq_refl)
    as (w' & Hrun & Hheap & _).
  exists w'. split; [exact Hrun|]. rewrite Hheap. apply lookup_insert_eq.
Defined.

(** RUNNING for a task that is already Running only sets its
    [UpdatedTime] to the current time: a repeated RUNNING message changes
    no other field, no table and not the ring, and the data of the
    message is not read. *)
Theorem running_again_touches_time (json_Unmarshal : list byte -> option api.PodInfo)
    (now : Time) (status : mesos.TaskStatus) (w : World) (p : loc) (t : PodTask) :
  mesos.State status = mesos.TASK_RUNNING ->
  taskRegistry (k w) !! mesos.TaskId status = Some p ->
  heap w !! p = Some t ->
  State t = StateRunning ->
  exists w',
    updateStatus json_Unmarshal now status w = (Ret (Some p, StateRunning), w') /\
    heap w' = <[p := set_UpdatedTime now t]> (heap w) /\
    k w' = k w /\ ringValues w' = ringValues w.
Proof.
  intros Hst Hreg Hheap Hrunning.
  rewrite (updateStatus_found _ _ _ _ p t Hreg Hheap). rewrite Hst, Hrunning.
  unfold_handlers; run_steps.
  destruct (bool_decide (2 <= verbosity w)%nat); simpl;
    (eexists; split; [reflexivity|]); simpl; auto.
Qed.

Lemma running_again_touches_time_witness :
  exists w',
    updateStatus fixtures.sample_Unmarshal 7%Z
      (fixtures.msg "R1" mesos.TASK_RUNNING (Some fixtures.net_data)) fixtures2.w_run
      = (Ret (Some 1%positive, StateRunning), w') /\
    heap w' !! 1%positive = Some (set_UpdatedTime 7%Z fixtures2.R1).
Proof.
  destruct (running_again_touches_time fixtures.sample_Unmarshal 7%Z
              (fixtures.msg "R1" mesos.TASK_RUNNING (Some fixtures.net_data))
              fixtures2.w_run 1%positive fixtures2.R1 eq_refl eq_refl eq_refl eq_refl)
    as (w' & Hrun & Hheap & _).
  exists w'. split; [exact Hrun|]. rewrite Hheap. apply lookup_insert_eq.
Defined.

(** FAILED, KILLED and LOST for a task that is Pending or Running delete
    the entry of the tasks table under [task.ID] and the entry of the pod
    table under [task.podKey], return the task with the state it had, and
    write neither the task nor the ring. *)
Theorem abnormal_status_deletes_both (json_Unmarshal : list byte -> option api.PodInfo)
    (now : Time) (status : mesos.TaskStatus) (w : World) (p : loc) (t : PodTask) :
  mesos.State status = mesos.TASK_FAILED \/
  mesos.State status = mesos.TASK_KILLED \/
  mesos.State status = mesos.TASK_LOST ->
  taskRegistry (k w) !! mesos.TaskId status = Some p ->
  heap w !! p = Some t ->
  State t = StatePending \/ State t = StateRunning ->
  exists w',
    updateStatus json_Unmarshal now status w = (Ret (Some p, State t), w') /\
    taskRegistry (k w') = delete (ID t) (taskRegistry (k w)) /\
    podToTask (k w') = delete (podKey t) (podToTask (k w)) /\
    tasksFinished (k w') = tasksFinished (k w) /\
    ringValues w' = ringValues w /\
    heap w' = heap w.
Proof.
  intros Hst Hreg Hheap Hstate.
  rewrite (updateStatus_found _ _ _ _ p t Hreg Hheap).
  destruct Hst as [-> | [-> | ->]], Hstate as [-> | ->];
    unfold_handlers; run_steps;
    repeat (split_branch json_Unmarshal; run_steps);
    (eexists; split; [reflexivity|]); simpl; auto 10.
Qed.

Lemma abnormal_status_deletes_both_witness :
  exists w',
    updateStatus fixtures.sample_Unmarshal 7%Z
      (fixtures.msg "R1" mesos.TASK_LOST None) fixtures2.w_run
      = (Ret (Some 1%positive, StateRunning), w') /\
    taskRegistry (k w') !! "R1" = None /\
    podToTask (k w') !! "/pods/ns/r" = None.
Proof.
  destruct (abnormal_status_deletes_both fixtures.sample_Unmarshal 7%Z
              (fixtures.msg "R1" mesos.TASK_LOST None) fixtures2.w_run
              1%positive fixtures2.R1)
    as (w' & Hrun & Htasks & Hpods & _).
  - right. right. reflexivity.
  - reflexivity.
  - reflexivity.
  - right. reflexivity.
  - exists w'. split; [exact Hrun|]. rewrite Htasks, Hpods.
    split; apply lookup_delete_eq.
Defined.

(** The log of a KILLED message for a task of the tasks table: when the
    task carries the marker [Deleted] no error is logged (one INFO entry
    at verbosity 2 or more, nothing below), otherwise one ERROR entry;
    this holds in every state of the task. *)
Theorem killed_log_policy (json_Unmarshal : list byte -> option api.PodInfo)
    (now : Time) (status : mesos.TaskStatus) (w : World) (p : loc) (t : PodTask) :
  mesos.State status = mesos.TASK_KILLED ->
  taskRegistry (k w) !! mesos.TaskId status = Some p ->
  heap w !! p = Some t ->
  glog (snd (updateStatus json_Unmarshal now status w))
    = glog w ++ killed_log (verbosity w) (Has t Deleted).
Proof.
  intros Hst Hreg Hheap.
  rewrite (updateStatus_found _ _ _ _ p t Hreg Hheap). rewrite Hst.
  unfold killed_log.
  destruct (State t); unfold_handlers; run_steps;
    (destruct (Has t Deleted); run_steps;
     [destruct (bool_decide (2 <= verbosity w)%nat)|]);
    simpl; rewrite ?app_nil_r; reflexivity.
Qed.

Lemma killed_log_policy_witness :
  glog (snd (updateStatus fixtures.sample_Unmarshal 7%Z
               (fixtures.msg "K1" mesos.TASK_KILLED None) fixtures2.w_kill))
  = [] /\
  glog (snd (updateStatus fixtures.sample_Unmarshal 7%Z
               (fixtures.msg "R1" mesos.TASK_KILLED None) fixtures2.w_run))
  = [(ERROR, "task killed: %+v, task %+v")].
Proof.
  split.
  - apply (killed_log_policy fixtures.sample_Unmarshal 7%Z
             (fixtures.msg "K1" mesos.TASK_KILLED None) fixtures2.w_kill
             1%positive fixtures2.K1); reflexivity.
  - apply (killed_log_policy fixtures.sample_Unmarshal 7%Z
             (fixtures.msg "R1" mesos.TASK_KILLED None) fixtures2.w_run
             1%positive fixtures2.R1); reflexivity.
Defined.

(** ** The consistency of the registry *)

Lemma registry_inv_no_dangling (w : World) : registry_inv w -> no_dangling w.
Proof.
  intros Hinv id p Hp. destruct (inv_tasks w Hinv id p Hp) as (t & Ht & _). eauto.
Qed.

Lemma registry_inv_ringView (w : World) : registry_inv w -> ringView w <> [].
Proof.
  intros Hinv. destruct (inv_ring w Hinv) as [Hne [i Hi]].
  unfold ringView. rewrite Hi. intros E.
  apply (f_equal length) in E. rewrite length_rotate in E.
  destruct (ringValues w); [congruence | discriminate E].
Qed.

Lemma ringView_elem (w : World) (v : option string) :
  is_Some (tasksFinished (k w)) -> v ∈ ringView w <-> v ∈ ringValues w.
Proof. intros [i Hi]. unfold ringView. rewrite Hi. apply elem_of_rotate. Qed.

Lemma ringView_nonempty (w : World) :
  ringView w <> [] -> ringValues w <> [] /\ is_Some (tasksFinished (k w)).
Proof.
  unfold ringView. destruct (tasksFinished (k w)) as [i|]; [|congruence].
  intros H. split; [|eauto]. intros E. rewrite E in H. apply H. reflexivity.
Qed.

(** The consistency does not depend on the log. *)
Lemma registry_inv_same (w w' : World) :
  heap w' = heap w -> k w' = k w -> ringValues w' = ringValues w ->
  registry_inv w -> registry_inv w'.
Proof.
  intros Hh Hk Hr [Ha Hb Hc Hd He].
  split; rewrite ?Hh, ?Hk, ?Hr; assumption.
Qed.

(** Writing one task without changing its id and pod key, its state
    staying as it is or going from one unfinished state to another. *)
Lemma registry_inv_write (w w' : World) (p : loc) (t t' : PodTask) :
  registry_inv w ->
  heap w !! p = Some t ->
  heap w' = <[p := t']> (heap w) -> k w' = k w -> ringValues w' = ringValues w ->
  ID t' = ID t -> podKey t' = podKey t ->
  (State t' = State t \/ (State t <> StateFinished /\ State t' <> StateFinished)) ->
  registry_inv w'.
Proof.
  intros [Ha Hb Hc Hd He] Hp Hh Hk Hr Hid Hkey Hstate.
  split; rewrite ?Hh, ?Hk, ?Hr; [| | | |exact He].
  - intros id q Hq. destruct (Ha id q Hq) as (tq & Htq & Hidq).
    destruct (decide (q = p)) as [->|Hne].
    + exists t'. rewrite lookup_insert_eq. split; [reflexivity | congruence].
    + exists tq. rewrite lookup_insert_ne by congruence. auto.
  - intros key id Hkeyid. destruct (Hb key id Hkeyid) as (q & tq & Hq & Htq & Hk1 & Hs1).
    destruct (decide (q = p)) as [->|Hne].
    + exists p, t'. rewrite lookup_insert_eq. assert (tq = t) as -> by congruence.
      split; [exact Hq|]. split; [reflexivity|]. split; [congruence|].
      destruct Hstate as [E|[_ E]]; congruence.
    + exists q, tq. rewrite lookup_insert_ne by congruence. auto.
  - intros gid q tq Hin Hq Htq. destruct (decide (q = p)) as [->|Hne].
    + rewrite lookup_insert_eq in Htq. injection Htq as <-.
      pose proof (Hc gid p t Hin Hq Hp) as Hfin.
      destruct Hstate as [E|[E _]]; congruence.
    + rewrite lookup_insert_ne in Htq by congruence. eauto.
  - intros id q tq Hq Htq Hfin. destruct (decide (q = p)) as [->|Hne].
    + rewrite lookup_insert_eq in Htq. injection Htq as <-.
      destruct Hstate as [E|[_ E]]; [|congruence].
      apply (Hd id p t Hq Hp). congruence.
    + rewrite lookup_insert_ne in Htq by congruence. eauto.
Qed.

(** Deleting the two entries of a task of the tasks table. *)
Lemma registry_inv_delete_both (w w' : World) (p : loc) (t : PodTask) :
  registry_inv w ->
  (forall q, taskRegistry (k w) !! ID t = Some q -> q = p) ->
  heap w !! p = Some t ->
  heap w' = heap w -> ringValues w' = ringValues w ->
  tasksFinished (k w') = tasksFinished (k w) ->
  taskRegistry (k w') = delete (ID t) (taskRegistry (k w)) ->
  podToTask (k w') = delete (podKey t) (podToTask (k w)) ->
  registry_inv w'.
Proof.
  intros [Ha Hb Hc Hd He] Hsame Hp Hh Hr Hf Ht Hpd.
  split; rewrite ?Hh, ?Hr, ?Hf, ?Ht, ?Hpd; [| | | |exact He].
  - intros id q Hq. apply lookup_delete_Some in Hq as [_ Hq]. eauto.
  - intros key id Hkeyid. apply lookup_delete_Some in Hkeyid as [Hne Hkeyid].
    destruct (Hb key id Hkeyid) as (q & tq & Hq & Htq & Hk1 & Hs1).
    exists q, tq. split; [|auto].
    rewrite lookup_delete_ne; [exact Hq|].
    intros E. subst id. apply Hsame in Hq as ->. congruence.
  - intros gid q tq Hin Hq Htq. apply lookup_delete_Some in Hq as [_ Hq]. eauto.
  - intros id q tq Hq Htq Hfin. apply lookup_delete_Some in Hq as [_ Hq]. eauto.
Qed.

(** The last step of the transition to Finished: the task has been
    written and its pod entry deleted; the ring is written now. *)
Lemma registry_inv_finish (w w2 : World) (p : loc) (t t' : PodTask) :
  registry_inv w ->
  taskRegistry (k w) !! ID t = Some p ->
  heap w !! p = Some t ->
  heap w2 = <[p := t']> (heap w) ->
  ID t' = ID t -> podKey t' = podKey t -> State t' = StateFinished ->
  taskRegistry (k w2) = taskRegistry (k w) ->
  podToTask (k w2) = delete (podKey t) (podToTask (k w)) ->
  tasksFinished (k w2) = tasksFinished (k w) ->
  ringValues w2 = ringValues w ->
  exists w3, recordFinished (ID t) w2 = (Ret tt, w3) /\ registry_inv w3.
Proof.
  intros Hinv Hreg Hp Hh Hid Hkey Hfin Ht Hpd Hf Hr.
  pose proof Hinv as [Ha Hb Hc Hd He].
  assert (ringView w2 = ringView w) as Hview2.
  { unfold ringView. rewrite Hf, Hr. reflexivity. }
  destruct (ringView w) as [|x xs] eqn:Hview.
  { exfalso. apply (registry_inv_ringView w Hinv). exact Hview. }
  assert (forall id q, taskRegistry (k w2) !! id = Some q ->
            exists tq, heap w2 !! q = Some tq /\ ID tq = id) as Ha2.
  { intros id q Hq. rewrite Ht in Hq. rewrite Hh.
    destruct (Ha id q Hq) as (tq & Htq & Hidq).
    destruct (decide (q = p)) as [->|Hne].
    - exists t'. rewrite lookup_insert_eq. split; [reflexivity | congruence].
    - exists tq. rewrite lookup_insert_ne by congruence. auto. }
  destruct (recordFinished_step (ID t) w2 x xs Hview2)
    as (w3 & Hrun & Hview3 & Hh3 & Hp3 & Hkeep & Hevict & Hdel).
  { intros id q Hq. destruct (Ha2 id q Hq) as (tq & Htq & _). eauto. }
  exists w3. split; [exact Hrun|].
  assert (ringValues w3 <> [] /\ is_Some (tasksFinished (k w3))) as He3.
  { apply ringView_nonempty. rewrite Hview3. destruct xs; discriminate. }
  assert (forall v, v ∈ ringValues w3 <-> v ∈ xs \/ v = Some (ID t)) as Hring3.
  { intros v. rewrite <- (ringView_elem w3 v (proj2 He3)), Hview3.
    rewrite elem_of_app, list_elem_of_singleton. reflexivity. }
  assert (forall v, v ∈ ringValues w <-> v = x \/ v ∈ xs) as Hring.
  { intros v. rewrite <- (ringView_elem w v (proj2 He)), Hview.
    apply elem_of_cons. }
  split; [| | | |exact He3].
  - intros id q Hq. apply Hdel in Hq. rewrite Hh3. apply Ha2, Hq.
  - intros key id Hkeyid. rewrite Hp3, Hpd in Hkeyid.
    apply lookup_delete_Some in Hkeyid as [Hne Hkeyid].
    destruct (Hb key id Hkeyid) as (q & tq & Hq & Htq & Hk1 & Hs1).
    assert (q <> p) as Hqp by (intros ->; congruence).
    exists q, tq. rewrite Hh3, Hh, lookup_insert_ne by congruence.
    split; [|auto]. rewrite Hkeep, Ht; [exact Hq|].
    intros ->. apply Hs1. apply (Hc id q tq); [|exact Hq|exact Htq].
    apply Hring. left. reflexivity.
  - intros gid q tq Hin Hq Htq. apply Hdel in Hq. rewrite Ht in Hq.
    rewrite Hh3, Hh in Htq.
    destruct (decide (q = p)) as [->|Hne].
    + rewrite lookup_insert_eq in Htq. congruence.
    + rewrite lookup_insert_ne in Htq by congruence.
      apply Hring3 in Hin as [Hin|[= ->]].
      * apply (Hc gid q tq); [apply Hring; right; exact Hin | exact Hq | exact Htq].
      * congruence.
  - intros id q tq Hq Htq Hfinq. apply Hring3.
    destruct (decide (id = ID t)) as [->|Hne]; [right; reflexivity|]. left.
    pose proof (Hdel _ _ Hq) as Hq2. rewrite Ht in Hq2.
    rewrite Hh3, Hh in Htq.
    assert (q <> p) as Hqp.
    { intros ->. destruct (Ha id p Hq2) as (t0 & Ht0 & Hid0). congruence. }
    rewrite lookup_insert_ne in Htq by congruence.
    pose proof (Hd id q tq Hq2 Htq Hfinq) as Hin. apply Hring in Hin as [Hx|Hin];
      [|exact Hin].
    exfalso. subst x.
    rewrite (Hevict id eq_refl) in Hq; [discriminate|].
    exists q, tq. rewrite Ht, Hh, lookup_insert_ne by congruence. auto.
Qed.

Lemma no_dangling_write (w w' : World) (p : loc) (t t' : PodTask) :
  no_dangling w ->
  heap w' = <[p := t']> (heap w) ->
  (forall id q, taskRegistry (k w') !! id = Some q -> taskRegistry (k w) !! id = Some q) ->
  no_dangling w'.
Proof.
  intros Hwf Hheap Hk id q Hq. rewrite Hheap.
  destruct (decide (q = p)) as [->|Hne].
  - rewrite lookup_insert_eq. eauto.
  - rewrite lookup_insert_ne by congruence. eapply Hwf, Hk, Hq.
Qed.

(** [handleTaskFinished] for a Running task, the ring having an element
    to write. *)
Lemma handleTaskFinished_running (now : Time) (status : mesos.TaskStatus)
    (w : World) (p : loc) (t : PodTask) (x : option string) (xs : list (option string)) :
  heap w !! p = Some t ->
  ringView w = x :: xs ->
  no_dangling w ->
  exists w',
    handleTaskFinished now (Some p) StateRunning status w = (Ret tt, w') /\
    heap w' = <[p := set_UpdatedTime now (set_State StateFinished t)]> (heap w) /\
    podToTask (k w') = delete (podKey t) (podToTask (k w)) /\
    ringView w' = xs ++ [Some (ID t)] /\
    (forall id, x <> Some id ->
                taskRegistry (k w') !! id = taskRegistry (k w) !! id).
Proof.
  intros Hheap Hview Hwf.
  unfold handleTaskFinished, log_V, log, modify_k, modify, bind, get, ret.
  destruct (bool_decide (2 <= verbosity w)%nat); run_steps;
    match goal with
    | |- context [recordFinished ?id ?w2] =>
        destruct (recordFinished_step id w2 x xs Hview) as
          (w3 & Hrun & Hview3 & Hh3 & Hp3 & Hkeep & _ & _);
        [ eapply (no_dangling_write w w2 p t); [exact Hwf | simpl | simpl; auto];
          rewrite ?insert_insert_eq; reflexivity
        | rewrite Hrun; simpl in *; exists w3;
          split; [reflexivity|];
          split; [rewrite Hh3, ?insert_insert_eq; reflexivity|];
          split; [exact Hp3|];
          split; [exact Hview3 | exact Hkeep] ]
    end.
Qed.

(** FINISHED for a Running task, the ring having an element to write:
    the call returns the task with [StateRunning]; afterwards the task is
    Finished with [UpdatedTime] the current time, the entry of the pod
    table under its pod key is deleted, its id is the last value of the
    ring, and the only entry that can have left the tasks table is the
    one of the id that the overwritten slot held; so the task itself is
    still in the tasks table unless that slot held its own id. *)
Theorem running_finished_transition (json_Unmarshal : list byte -> option api.PodInfo)
    (now : Time) (status : mesos.TaskStatus) (w : World) (p : loc) (t : PodTask)
    (x : option string) (xs : list (option string)) :
  mesos.State status = mesos.TASK_FINISHED ->
  taskRegistry (k w) !! mesos.TaskId status = Some p ->
  heap w !! p = Some t ->
  State t = StateRunning ->
  ringView w = x :: xs ->
  no_dangling w ->
  exists w',
    updateStatus json_Unmarshal now status w = (Ret (Some p, StateRunning), w') /\
    heap w' = <[p := set_UpdatedTime now (set_State StateFinished t)]> (heap w) /\
    podToTask (k w') = delete (podKey t) (podToTask (k w)) /\
    ringView w' = xs ++ [Some (ID t)] /\
    (forall id, x <> Some id ->
                taskRegistry (k w') !! id = taskRegistry (k w) !! id) /\
    (x <> Some (mesos.TaskId status) ->
     taskRegistry (k w') !! mesos.TaskId status = Some p).
Proof.
  intros Hst Hreg Hheap Hrunning Hview Hwf.
  rewrite (updateStatus_found _ _ _ _ p t Hreg Hheap). rewrite Hst, Hrunning.
  destruct (handleTaskFinished_running now status w p t x xs Hheap Hview Hwf)
    as (w' & Hrun & Hh & Hp & Hview' & Hkeep).
  exists w'. unfold bind. rewrite Hrun.
  split; [reflexivity|]. split; [exact Hh|]. split; [exact Hp|].
  split; [exact Hview'|]. split; [exact Hkeep|].
  intros Hx. rewrite (Hkeep _ Hx). exact Hreg.
Qed.

(** The first scenario of the specification, its second message:
    FINISHED for the running task "R1". *)
Lemma running_finished_transition_witness :
  exists w',
    updateStatus fixtures.sample_Unmarshal 7%Z
      (fixtures.msg "R1" mesos.TASK_FINISHED None) fixtures2.w_run
      = (Ret (Some 1%positive, StateRunning), w') /\
    State <$> heap w' !! 1%positive = Some StateFinished /\
    podToTask (k w') !! "/pods/ns/r" = None /\
    taskRegistry (k w') !! "R1" = Some 1%positive /\
    ringView w' = [None; None; Some "R1"].
Proof.
  destruct (running_finished_transition fixtures.sample_Unmarshal 7%Z
              (fixtures.msg "R1" mesos.TASK_FINISHED None) fixtures2.w_run
              1%positive fixtures2.R1 None [None; None]
              eq_refl eq_refl eq_refl eq_refl eq_refl)
    as (w' & Hrun & Hheap & Hpods & Hview & _ & Hkept).
  - intros id q Hq. destruct (decide (id = "R1")) as [->|Hne].
    + vm_compute in Hq. injection Hq as <-. eexists. reflexivity.
    + unfold fixtures2.w_run in Hq. simpl in Hq.
      rewrite lookup_insert_ne in Hq by congruence. discriminate Hq.
  - exists w'. split; [exact Hrun|].
    split; [rewrite Hheap, lookup_insert_eq; reflexivity|].
    split; [rewrite Hpods; apply lookup_delete_eq|].
    split; [apply Hkept; discriminate | exact Hview].
Defined.

(** The transition from Pending to Running, as far as the next steps
    need it. *)
Lemma pending_running_step (json_Unmarshal : list byte -> option api.PodInfo)
    (now : Time) (status : mesos.TaskStatus) (w : World) (p : loc) (t : PodTask) :
  mesos.State status = mesos.TASK_RUNNING ->
  taskRegistry (k w) !! mesos.TaskId status = Some p ->
  heap w !! p = Some t ->
  State t = StatePending ->
  exists (w' : World) (t' : PodTask),
    updateStatus json_Unmarshal now status w = (Ret (Some p, StatePending), w') /\
    heap w' = <[p := t']> (heap w) /\
    k w' = k w /\ ringValues w' = ringValues w /\
    State t' = StateRunning /\ ID t' = ID t /\ podKey t' = podKey t.
Proof.
  intros Hst Hreg Hheap Hpending.
  rewrite (updateStatus_found _ _ _ _ p t Hreg Hheap). rewrite Hst, Hpending.
  unfold_handlers; run_steps;
    repeat (split_branch json_Unmarshal; run_steps);
    rewrite !insert_insert_eq;
    (eexists _, _; split; [reflexivity|]); simpl; auto 10.
Qed.

(** The normal life of a task: [register], then RUNNING, then FINISHED
    for its id, in a registry whose ring has an element and does not hold
    the id.  The three calls return; afterwards [get] still finds the
    task, now Finished, [taskForPod] no longer finds a task for its pod,
    and the ring holds its id. *)
Theorem normal_lifecycle (json_Unmarshal : list byte -> option api.PodInfo)
    (now1 now2 : Time) (running finished : mesos.TaskStatus)
    (w : World) (p : loc) (t : PodTask) :
  heap w !! p = Some t ->
  State t = StatePending ->
  no_dangling w ->
  ringView w <> [] ->
  Some (ID t) ∉ ringValues w ->
  mesos.TaskId running = ID t -> mesos.State running = mesos.TASK_RUNNING ->
  mesos.TaskId finished = ID t -> mesos.State finished = mesos.TASK_FINISHED ->
  exists w1 w2 w3,
    register (Some p) None w = (Ret (Some p, None), w1) /\
    updateStatus json_Unmarshal now1 running w1 = (Ret (Some p, StatePending), w2) /\
    updateStatus json_Unmarshal now2 finished w2 = (Ret (Some p, StateRunning), w3) /\
    get_ (ID t) w3 = (Ret (Some p, StateFinished), w3) /\
    taskForPod (podKey t) w3 = (Ret (EmptyString, false), w3) /\
    Some (ID t) ∈ ringValues w3.
Proof.
  intros Hp Hpending Hwf Hring Hfresh Hid1 Hst1 Hid2 Hst2.
  pose proof (register_eval w p t Hp) as Hreg.
  set (w1 := set_k _ w) in Hreg.
  assert (taskRegistry (k w1) !! ID t = Some p) as Ht1 by apply lookup_insert_eq.
  destruct (pending_running_step json_Unmarshal now1 running w1 p t Hst1)
    as (w2 & t' & Hrun & Hh2 & Hk2 & Hr2 & Hs2 & Hi2 & Hkey2);
    [rewrite Hid1; exact Ht1 | exact Hp | exact Hpending |].
  assert (heap w2 !! p = Some t') as Hp2 by (rewrite Hh2; apply lookup_insert_eq).
  assert (ringView w2 = ringView w) as Hview2.
  { unfold ringView. rewrite Hk2, Hr2. reflexivity. }
  pose proof (ringView_nonempty w Hring) as [_ Hsome].
  destruct (ringView w) as [|x xs] eqn:Hview; [congruence|].
  assert (x <> Some (ID t)) as Hx.
  { intros ->. apply Hfresh. apply (ringView_elem w _ Hsome).
    rewrite Hview. left. }
  assert (taskRegistry (k w2) !! mesos.TaskId finished = Some p) as Ht2.
  { rewrite Hid2, Hk2. exact Ht1. }
  destruct (handleTaskFinished_running now2 finished w2 p t' x xs Hp2 Hview2)
    as (w3 & Hfin & Hh3 & Hp3 & Hview3 & Hkeep).
  { eapply (no_dangling_write w1 w2 p t); [|exact Hh2 | rewrite Hk2; auto].
    intros id q Hq. unfold w1 in Hq. simpl in *.
    destruct (decide (id = ID t)) as [->|Hne].
    - rewrite lookup_insert_eq in Hq. injection Hq as <-. eauto.
    - rewrite lookup_insert_ne in Hq by congruence. eapply Hwf, Hq. }
  exists w1, w2, w3. split; [exact Hreg|]. split; [exact Hrun|]. split.
  { rewrite (updateStatus_found _ _ _ _ p t' Ht2 Hp2). rewrite Hst2, Hs2.
    unfold bind. rewrite Hfin. reflexivity. }
  split; [|split].
  - unfold get_. rewrite _get_eval.
    rewrite (Hkeep (ID t) Hx), Hk2, Ht1.
    rewrite Hh3, lookup_insert_eq. reflexivity.
  - rewrite taskForPod_eval, Hp3, Hkey2, lookup_delete_eq. reflexivity.
  - assert (ringView w3 <> []) as Hne3 by (rewrite Hview3; destruct xs; discriminate).
    apply (ringView_elem w3 _ (proj2 (ringView_nonempty w3 Hne3))).
    rewrite Hview3, Hi2. apply elem_of_app. right. left.
Qed.

(** The first scenario of the specification. *)
Lemma normal_lifecycle_witness :
  exists w1 w2 w3,
    register (Some 1%positive) None fixtures.w_new = (Ret (Some 1%positive, None), w1) /\
    updateStatus fixtures.sample_Unmarshal 1%Z
      (fixtures.msg "T1" mesos.TASK_RUNNING (Some fixtures.net_data)) w1
      = (Ret (Some 1%positive, StatePending), w2) /\
    updateStatus fixtures.sample_Unmarshal 2%Z
      (fixtures.msg "T1" mesos.TASK_FINISHED None) w2
      = (Ret (Some 1%positive, StateRunning), w3) /\
    get_ "T1" w3 = (Ret (Some 1%positive, StateFinished), w3) /\
    taskForPod "/pods/ns/a" w3 = (Ret (EmptyString, false), w3) /\
    Some "T1" ∈ ringValues w3.
Proof.
  apply (normal_lifecycle fixtures.sample_Unmarshal 1%Z 2%Z
           (fixtures.msg "T1" mesos.TASK_RUNNING (Some fixtures.net_data))
           (fixtures.msg "T1" mesos.TASK_FINISHED None)
           fixtures.w_new 1%positive fixtures.T1);
    try reflexivity.
  - intros id q Hq. vm_compute in Hq. discriminate Hq.
  - discriminate.
  - apply (bool_decide_unpack _). vm_compute. exact I.
Defined.

(** ** list *)

Lemma list_loop_nil_filter (entries : list (string * loc)) :
  forall (acc : list string) (w : World),
    list_loop None entries acc w = (Ret (acc ++ entries.*1), w).
Proof.
  induction entries as [|[id p] rest IH]; intros acc w; simpl.
  - rewrite app_nil_r. reflexivity.
  - rewrite IH, <- app_assoc. reflexivity.
Qed.

Lemma list_loop_filter (f : StateType) (entries : list (string * loc)) :
  forall (acc : list string) (w : World),
    (forall id p, (id, p) ∈ entries -> is_Some (heap w !! p)) ->
    exists ids,
      list_loop (Some f) entries acc w = (Ret (acc ++ ids), w) /\
      sublist ids (entries.*1) /\
      (forall id, id ∈ ids <->
         exists p t, (id, p) ∈ entries /\ heap w !! p = Some t /\ State t = f).
Proof.
  induction entries as [|[id p] rest IH]; intros acc w Hall; simpl.
  - exists []. rewrite app_nil_r. split; [reflexivity|]. split; [constructor|].
    intros id. split; [intros H; inversion H|].
    intros (p & t & H & _). inversion H.
  - destruct (Hall id p) as [t Ht]; [left|].
    unfold bind. rewrite (load_Some w p t Ht).
    destruct (IH (if decide (f = State t) then acc ++ [id] else acc) w)
      as (ids & Hrun & Hsub & Hmem).
    { intros id' p' H. apply (Hall id' p'). right. exact H. }
    destruct (decide (f = State t)) as [Hf|Hf].
    + exists (id :: ids). rewrite Hrun, <- app_assoc. split; [reflexivity|].
      split; [constructor; exact Hsub|].
      intros id'. rewrite elem_of_cons, Hmem. split.
      * intros [->|(p' & t' & H & Hrest)].
        -- exists p, t. split; [left | auto].
        -- exists p', t'. split; [right; exact H | exact Hrest].
      * intros (p' & t' & H & Hrest). apply elem_of_cons in H as [[= -> ->]|H].
        -- left. reflexivity.
        -- right. eauto.
    + exists ids. rewrite Hrun. split; [reflexivity|].
      split; [constructor; exact Hsub|].
      intros id'. rewrite Hmem. split.
      * intros (p' & t' & H & Hrest). exists p', t'. split; [right; exact H | exact Hrest].
      * intros (p' & t' & H & Hp' & Hs). apply elem_of_cons in H as [[= -> ->]|H].
        -- congruence.
        -- eauto.
Qed.

(** [list] reads and never writes.  With a nil filter it returns the ids
    of the tasks table, each once.  With a filter it returns, each once,
    the ids of the tasks of the table whose state is the filter's; it
    reads the state of every task of the table to do so. *)
Theorem list_returns_matching_ids (filter : option StateType) (w : World) :
  filter = None \/ no_dangling w ->
  exists ids,
    list_ filter w = (Ret ids, w) /\
    NoDup ids /\
    (forall id, id ∈ ids <->
       exists p, taskRegistry (k w) !! id = Some p /\
                 (filter = None \/
                  exists t, heap w !! p = Some t /\ filter = Some (State t))) /\
    (filter = None -> length ids = size (taskRegistry (k w))).
Proof.
  intros Hok. unfold list_, bind, get. simpl.
  destruct filter as [f|].
  - destruct Hok as [Hok|Hwf]; [discriminate|].
    destruct (list_loop_filter f (map_to_list (taskRegistry (k w))) [] w)
      as (ids & Hrun & Hsub & Hmem).
    { intros id p H. apply elem_of_map_to_list in H. exact (Hwf id p H). }
    exists ids. split; [exact Hrun|].
    split; [exact (sublist_NoDup _ _ (NoDup_fst_map_to_list _) Hsub)|].
    split; [|discriminate].
    intros id. rewrite Hmem. split.
    + intros (p & t & H & Ht & Hs). apply elem_of_map_to_list in H.
      exists p. split; [exact H|]. right. exists t. split; [exact Ht | congruence].
    + intros (p & H & [Hnone|(t & Ht & Hs)]); [discriminate|].
      exists p, t. rewrite elem_of_map_to_list. split; [exact H|]. split; [exact Ht|].
      congruence.
  - rewrite list_loop_nil_filter. simpl. eexists. split; [reflexivity|].
    split; [apply NoDup_fst_map_to_list|]. split.
    + intros id. rewrite list_elem_of_fmap. split.
      * intros ([id' p] & -> & H). apply elem_of_map_to_list in H. eauto.
      * intros (p & H & _). exists (id, p). split; [reflexivity|].
        apply elem_of_map_to_list. exact H.
    + intros _. rewrite length_fmap. apply length_map_to_list.
Qed.

Lemma fixtures2_w_two_no_dangling : no_dangling fixtures2.w_two.
Proof.
  intros id p Hq. unfold fixtures2.w_two in *. simpl in *.
  destruct (decide (id = "T1")) as [->|H1].
  - vm_compute in Hq. injection Hq as <-. eexists. reflexivity.
  - rewrite lookup_insert_ne in Hq by congruence.
    destruct (decide (id = "T9")) as [->|H9].
    + vm_compute in Hq. injection Hq as <-. eexists. reflexivity.
    + rewrite lookup_insert_ne in Hq by congruence. discriminate Hq.
Defined.

(** The two tasks of a table, one Pending and one Finished: the filter
    Finished lists the finished one only. *)
Lemma list_returns_matching_ids_witness :
  exists ids,
    list_ (Some StateFinished) fixtures2.w_two = (Ret ids, fixtures2.w_two) /\
    NoDup ids /\
    ("T9" ∈ ids) /\ ("T1" ∉ ids).
Proof.
  destruct (list_returns_matching_ids (Some StateFinished) fixtures2.w_two)
    as (ids & Hrun & Hnodup & Hmem & _).
  - right. apply fixtures2_w_two_no_dangling.
  - exists ids. split; [exact Hrun|]. split; [exact Hnodup|]. split.
    + apply Hmem. exists 9%positive. split; [reflexivity|]. right.
      eexists. split; reflexivity.
    + intros Hin. apply Hmem in Hin as (p & Hp & [Hn|(t & Ht & Hs)]); [discriminate|].
      vm_compute in Hp. injection Hp as <-. vm_compute in Ht. injection Ht as <-.
      discriminate Hs.
Defined.

(** ** What updateStatus leaves alone *)

Lemma preserved_same_heap (w w' : World) :
  heap w' = heap w ->
  (forall key id, podToTask (k w') !! key = Some id -> podToTask (k w) !! key = Some id) ->
  (forall id q, taskRegistry (k w') !! id = Some q -> taskRegistry (k w) !! id = Some q) ->
  length (ringValues w') = length (ringValues w) ->
  verbosity w' = verbosity w ->
  glog w `prefix_of` glog w' ->
  preserved w w'.
Proof.
  intros Hh Hp Ht Hr Hv Hl. unfold preserved. rewrite Hh.
  split; [tauto|]. split; [|auto].
  intros q tq tq' H1 H2. assert (tq' = tq) as -> by congruence. auto.
Qed.

Lemma preserved_write (w w' : World) (p : loc) (t t' : PodTask) :
  heap w !! p = Some t ->
  heap w' = <[p := t']> (heap w) ->
  ID t' = ID t -> podKey t' = podKey t -> Flags t' = Flags t ->
  launchTime t' = launchTime t -> api.Name (Pod t') = api.Name (Pod t) ->
  (forall key id, podToTask (k w') !! key = Some id -> podToTask (k w) !! key = Some id) ->
  (forall id q, taskRegistry (k w') !! id = Some q -> taskRegistry (k w) !! id = Some q) ->
  length (ringValues w') = length (ringValues w) ->
  verbosity w' = verbosity w ->
  glog w `prefix_of` glog w' ->
  preserved w w'.
Proof.
  intros Hp Hh Hid Hkey Hfl Hlt Hname Hpods Htasks Hr Hv Hl. unfold preserved. rewrite Hh.
  split; [|split; [|auto]].
  - intros q. destruct (decide (q = p)) as [->|Hne].
    + rewrite lookup_insert_eq, Hp. split; discriminate.
    + rewrite lookup_insert_ne by congruence. tauto.
  - intros q tq tq' H1 H2. destruct (decide (q = p)) as [->|Hne].
    + rewrite lookup_insert_eq in H2. assert (tq = t) as -> by congruence.
      injection H2 as <-. auto.
    + rewrite lookup_insert_ne in H2 by congruence.
      assert (tq' = tq) as -> by congruence. auto.
Qed.

Lemma recordFinished_frame_ring (taskId : string) (w : World) :
  length (ringValues (snd (recordFinished taskId w))) = length (ringValues w) /\
  verbosity (snd (recordFinished taskId w)) = verbosity w /\
  glog (snd (recordFinished taskId w)) = glog w.
Proof.
  unfold recordFinished, recordFinishedTask, ring_Next, ring_Value, ring_set_Value,
    load, bind, modify_k, modify, get, ret, panic.
  simpl. repeat (case_match; simpl in *; simplify_eq);
    rewrite ?length_insert; auto.
Qed.

Ltac solve_prefix :=
  simpl; rewrite <- ?app_assoc; first [reflexivity | apply prefix_app_r; reflexivity].

Ltac solve_other :=
  let q := fresh "q" in let Hq := fresh "Hq" in
  intros q Hq; simpl; rewrite ?insert_insert_eq;
  first [reflexivity | apply lookup_insert_ne; congruence].

Ltac solve_preserved Hheap :=
  first
    [ apply preserved_same_heap;
        [ reflexivity
        | simpl; eauto using lookup_delete_Some_inv
        | simpl; eauto using lookup_delete_Some_inv
        | reflexivity | reflexivity | solve_prefix ]
    | eapply (preserved_write _ _ _ _ _ Hheap);
        [ simpl; rewrite ?insert_insert_eq; reflexivity
        | reflexivity | reflexivity | reflexivity | reflexivity | reflexivity
        | simpl; eauto using lookup_delete_Some_inv
        | simpl; eauto using lookup_delete_Some_inv
        | reflexivity | reflexivity | solve_prefix ] ].

(** One call of [updateStatus], returning or panicking: no task of the
    store appears or disappears; every task keeps its id, pod key, flags,
    launch time and pod name; no entry is added to the tasks table or to
    the pod table, and an entry that stays keeps its value; the ring keeps
    its length; the log is extended, never cut.  A task other than the
    one the tasks table holds under the message's id is not written. *)
Theorem updateStatus_preserves (json_Unmarshal : list byte -> option api.PodInfo)
    (now : Time) (status : mesos.TaskStatus) (w : World) :
  preserved w (snd (updateStatus json_Unmarshal now status w)) /\
  (forall q, taskRegistry (k w) !! mesos.TaskId status <> Some q ->
             heap (snd (updateStatus json_Unmarshal now status w)) !! q = heap w !! q).
Proof.
  destruct (taskRegistry (k w) !! mesos.TaskId status) as [p|] eqn:Hreg.
  2:{ unfold updateStatus, bind, mesos.GetState, mesos.GetTaskId_GetValue.
      rewrite (_get_missing w _ Hreg). simpl.
      destruct (mesos.State status); simpl; (split; [solve_preserved Hreg | reflexivity]). }
  destruct (heap w !! p) as [t|] eqn:Hheap.
  2:{ unfold updateStatus, bind, mesos.GetState, mesos.GetTaskId_GetValue.
      rewrite _get_eval, Hreg, Hheap. simpl. split; [solve_preserved Hreg | reflexivity]. }
  rewrite (updateStatus_found _ _ _ _ p t Hreg Hheap).
  destruct (mesos.State status) eqn:Hst, (State t) eqn:Hstate;
    unfold_handlers; run_steps;
    repeat (split_branch json_Unmarshal; run_steps);
    try solve [split; [solve_preserved Hheap
                      | solve_other]].
  all: match goal with
       | |- context [recordFinished ?id ?w2] =>
           destruct (recordFinished_frame id w2) as (Hh & Hp & Hk);
           destruct (recordFinished_frame_ring id w2) as (Hr & Hv & Hl);
           destruct (recordFinished id w2) as [[[]|msg] w3]; simpl in *;
           (split;
            [ eapply (preserved_write _ _ _ _ _ Hheap);
              [ rewrite Hh, ?insert_insert_eq; reflexivity
              | reflexivity | reflexivity | reflexivity | reflexivity | reflexivity
              | rewrite Hp; eauto using lookup_delete_Some_inv
              | exact Hk
              | exact Hr | exact Hv
              | rewrite Hl; solve_prefix ]
            | intros q Hq; rewrite Hh, ?insert_insert_eq;
              apply lookup_insert_ne; congruence ])
       end.
Qed.

(** ** When updateStatus returns and when it panics *)

(** With a ring that has an element, [updateStatus] panics in two cases
    only: RUNNING for an id that is not in the tasks table, and FINISHED
    for a Pending task.  In every other case it returns the task found
    under the id of the message (nil if there is none) and the state the
    task had before the call ([StateUnknown] for the nil task), also when
    the call has changed that state. *)
Theorem updateStatus_outcome (json_Unmarshal : list byte -> option api.PodInfo)
    (now : Time) (status : mesos.TaskStatus) (w : World) :
  ringView w <> [] ->
  no_dangling w ->
  fst (updateStatus json_Unmarshal now status w) = expected_outcome w status.
Proof.
  intros Hring Hwf. unfold expected_outcome.
  destruct (taskRegistry (k w) !! mesos.TaskId status) as [p|] eqn:Hreg.
  2:{ unfold updateStatus, bind, mesos.GetState, mesos.GetTaskId_GetValue.
      rewrite (_get_missing w _ Hreg). simpl.
      destruct (mesos.State status); reflexivity. }
  destruct (Hwf _ _ Hreg) as [t Hheap]. rewrite Hheap.
  rewrite (updateStatus_found _ _ _ _ p t Hreg Hheap).
  destruct (mesos.State status) eqn:Hst, (State t) eqn:Hstate;
    unfold_handlers; run_steps;
    repeat (split_branch json_Unmarshal; run_steps);
    try reflexivity.
  all: destruct (ringView w) as [|x xs] eqn:Hview; [congruence|];
    match goal with
    | |- context [recordFinished ?id ?w2] =>
        destruct (recordFinished_step id w2 x xs Hview) as (w3 & Hrun & _);
        [ eapply (no_dangling_write w w2 p t); [exact Hwf | simpl | simpl; auto];
          rewrite ?insert_insert_eq; reflexivity
        | rewrite Hrun; reflexivity ]
    end.
Qed.

Lemma updateStatus_outcome_witness :
  fst (updateStatus fixtures.sample_Unmarshal 7%Z
         (fixtures.msg "T1" mesos.TASK_RUNNING None) fixtures2.w_two)
  = Ret (Some 1%positive, StatePending).
Proof.
  apply (updateStatus_outcome fixtures.sample_Unmarshal 7%Z
           (fixtures.msg "T1" mesos.TASK_RUNNING None) fixtures2.w_two).
  - discriminate.
  - apply fixtures2_w_two_no_dangling.
Defined.

(** A new registry is consistent, whatever tasks the store holds. *)
Lemma new_registry_inv (n : nat) (h : gmap loc PodTask) (v : nat) :
  registry_inv (newInMemoryTaskRegistry (S n) h v).
Proof.
  split; simpl.
  - intros id p H. rewrite lookup_empty in H. discriminate H.
  - intros key id H. rewrite lookup_empty in H. discriminate H.
  - intros gid p t _ H. rewrite lookup_empty in H. discriminate H.
  - intros id p t H. rewrite lookup_empty in H. discriminate H.
  - split; [discriminate | eauto].
Qed.

Ltac solve_state_cond :=
  simpl;
  first
    [ left; reflexivity
    | right; repeat match goal with H : State _ = _ |- _ => rewrite H end;
      split; discriminate ].

Ltac solve_inv Hinv Hheap Hsame :=
  first
    [ exact Hinv
    | eapply registry_inv_same; [| | |exact Hinv]; reflexivity
    | eapply (registry_inv_write _ _ _ _ _ Hinv Hheap);
        [ simpl; rewrite ?insert_insert_eq; reflexivity
        | reflexivity | reflexivity | reflexivity | reflexivity
        | solve_state_cond ]
    | eapply (registry_inv_delete_both _ _ _ _ Hinv Hsame Hheap);
        reflexivity ].

(** One call of [updateStatus] keeps the registry consistent, whether it
    returns or panics. *)
Lemma updateStatus_inv_step (json_Unmarshal : list byte -> option api.PodInfo)
    (now : Time) (status : mesos.TaskStatus) (w : World) :
  registry_inv w ->
  registry_inv (snd (updateStatus json_Unmarshal now status w)).
Proof.
  intros Hinv.
  destruct (taskRegistry (k w) !! mesos.TaskId status) as [p|] eqn:Hreg.
  2:{ unfold updateStatus, bind, mesos.GetState, mesos.GetTaskId_GetValue.
      rewrite (_get_missing w _ Hreg). simpl.
      destruct (mesos.State status); simpl; solve_inv Hinv Hreg Hreg. }
  destruct (inv_tasks w Hinv _ _ Hreg) as (t & Hheap & HID).
  assert (forall q, taskRegistry (k w) !! ID t = Some q -> q = p) as Hsame.
  { intros q Hq. rewrite HID in Hq. congruence. }
  rewrite (updateStatus_found _ _ _ _ p t Hreg Hheap).
  destruct (mesos.State status) eqn:Hst, (State t) eqn:Hstate;
    unfold_handlers; run_steps;
    repeat (split_branch json_Unmarshal; run_steps);
    try solve [solve_inv Hinv Hheap Hsame].
  all: match goal with
       | |- context [recordFinished ?id ?w2] =>
           destruct (registry_inv_finish w w2 p t
                       (set_UpdatedTime now (set_State StateFinished t)) Hinv)
             as (w3 & Hrun & Hinv3);
           [ rewrite HID; exact Hreg | exact Hheap
           | simpl; rewrite ?insert_insert_eq; reflexivity
           | reflexivity | reflexivity | reflexivity | reflexivity | reflexivity
           | reflexivity | reflexivity
           | rewrite Hrun; exact Hinv3 ]
       end.
Qed.

(** Any sequence of calls of [updateStatus] keeps the registry
    consistent, whichever of them return and whichever panic: afterwards,
    as before, every id of the tasks table is the id of its task, every
    entry of the pod table names an unfinished task of the tasks table
    with that pod key, and the Finished tasks of the table are exactly
    the tasks of the table whose id the ring holds. *)
Theorem updateStatuses_keep_registry_inv
    (json_Unmarshal : list byte -> option api.PodInfo)
    (msgs : list (Time * mesos.TaskStatus)) (w : World) :
  registry_inv w ->
  registry_inv (updateStatuses json_Unmarshal msgs w).
Proof.
  revert w. induction msgs as [|[now status] rest IH]; intros w Hinv; simpl.
  - exact Hinv.
  - apply IH, updateStatus_inv_step, Hinv.
Qed.

(** The registry that holds the Pending task "T1" is consistent. *)
Lemma fixtures_w_dup_inv : registry_inv fixtures.w_dup.
Proof.
  assert (forall id q, taskRegistry (k fixtures.w_dup) !! id = Some q ->
                       id = "T1" /\ q = 1%positive) as Htasks.
  { intros id q Hq. unfold fixtures.w_dup in Hq. simpl in Hq.
    destruct (decide (id = "T1")) as [->|Hne].
    - vm_compute in Hq. injection Hq as <-. auto.
    - rewrite lookup_insert_ne, lookup_empty in Hq by congruence. discriminate Hq. }
  split.
  - intros id q Hq. apply Htasks in Hq as [-> ->]. eexists. split; reflexivity.
  - intros key id Hk. unfold fixtures.w_dup in Hk. simpl in Hk.
    destruct (decide (key = "/pods/ns/a")) as [->|Hne].
    + vm_compute in Hk. injection Hk as <-.
      eexists _, _. repeat split; try reflexivity. discriminate.
    + rewrite lookup_insert_ne, lookup_empty in Hk by congruence. discriminate Hk.
  - intros gid q tq Hin _ _. exfalso. revert Hin.
    apply (bool_decide_unpack _). vm_compute. exact I.
  - intros id q tq Hq Htq Hfin. apply Htasks in Hq as [-> ->].
    vm_compute in Htq. injection Htq as <-. discriminate Hfin.
  - split; [discriminate | eexists; reflexivity].
Defined.

Lemma updateStatuses_keep_registry_inv_witness :
  registry_inv
    (updateStatuses fixtures.sample_Unmarshal
       [(1%Z, fixtures.msg "T1" mesos.TASK_RUNNING None);
        (2%Z, fixtures.msg "T1" mesos.TASK_FINISHED None)]
       fixtures.w_dup).
Proof.
  apply (updateStatuses_keep_registry_inv fixtures.sample_Unmarshal
           [(1%Z, fixtures.msg "T1" mesos.TASK_RUNNING None);
            (2%Z, fixtures.msg "T1" mesos.TASK_FINISHED None)]
           fixtures.w_dup).
  apply fixtures_w_dup_inv.
Defined.

(** A registry made by [NewInMemoryTaskRegistry] is consistent and
    empty: its ring has 1024 empty elements, [get] finds no task,
    [taskForPod] finds no pod and [list] returns no id, whatever the
    filter. *)
Theorem new_registry_empty_and_consistent (h : gmap loc PodTask) (v : nat) :
  registry_inv (NewInMemoryTaskRegistry h v) /\
  length (ringValues (NewInMemoryTaskRegistry h v)) = 1024 /\
  (forall x, x ∈ ringValues (NewInMemoryTaskRegistry h v) -> x = None) /\
  (forall id, fst (get_ id (NewInMemoryTaskRegistry h v)) = Ret (None, StateUnknown)) /\
  (forall key, fst (taskForPod key (NewInMemoryTaskRegistry h v))
               = Ret (EmptyString, false)) /\
  (forall filter, fst (list_ filter (NewInMemoryTaskRegistry h v)) = Ret []).
Proof.
  split; [apply new_registry_inv|].
  split; [apply length_replicate|].
  split; [intros x Hx; apply elem_of_replicate in Hx; tauto|].
  split; [intros id; unfold get_; rewrite _get_eval; simpl;
          rewrite lookup_empty; reflexivity|].
  split; [intros key; rewrite taskForPod_eval; simpl;
          rewrite lookup_empty; reflexivity|].
  intros filter. unfold list_, bind, get. simpl.
  rewrite map_to_list_empty. reflexivity.
Qed.

(** [register(t, nil)] keeps the registry consistent when the task is
    not Finished, its id is not in the tasks table and the ring does not
    hold its id. *)
Theorem register_keeps_registry_inv (w : World) (p : loc) (t : PodTask) :
  registry_inv w ->
  heap w !! p = Some t ->
  State t <> StateFinished ->
  taskRegistry (k w) !! ID t = None ->
  Some (ID t) ∉ ringValues w ->
  exists w', register (Some p) None w = (Ret (Some p, None), w') /\ registry_inv w'.
Proof.
  intros [Ha Hb Hc Hd He] Hp Hstate Hfresh Hring.
  eexists. split; [apply (register_eval w p t Hp)|].
  split; simpl; [| | | |exact He].
  - intros id q Hq. destruct (decide (id = ID t)) as [->|Hne].
    + rewrite lookup_insert_eq in Hq. injection Hq as <-. eauto.
    + rewrite lookup_insert_ne in Hq by congruence. eauto.
  - intros key id Hkeyid. destruct (decide (key = podKey t)) as [->|Hne].
    + rewrite lookup_insert_eq in Hkeyid. injection Hkeyid as <-.
      exists p, t. rewrite lookup_insert_eq. auto.
    + rewrite lookup_insert_ne in Hkeyid by congruence.
      destruct (Hb key id Hkeyid) as (q & tq & Hq & Hrest).
      exists q, tq. split; [|exact Hrest].
      rewrite lookup_insert_ne; [exact Hq|]. intros <-. congruence.
  - intros gid q tq Hin Hq Htq. destruct (decide (gid = ID t)) as [->|Hne].
    + contradiction.
    + rewrite lookup_insert_ne in Hq by congruence. eauto.
  - intros id q tq Hq Htq Hfin. destruct (decide (id = ID t)) as [->|Hne].
    + rewrite lookup_insert_eq in Hq. injection Hq as <-. congruence.
    + rewrite lookup_insert_ne in Hq by congruence. eauto.
Qed.

Lemma register_keeps_registry_inv_witness :
  exists w',
    register (Some 1%positive) None
      (newInMemoryTaskRegistry 3 (<[1%positive := fixtures.T1]> ∅) 0)
      = (Ret (Some 1%positive, None), w') /\
    registry_inv w'.
Proof.
  apply (register_keeps_registry_inv
           (newInMemoryTaskRegistry 3 (<[1%positive := fixtures.T1]> ∅) 0)
           1%positive fixtures.T1).
  - apply new_registry_inv.
  - reflexivity.
  - discriminate.
  - reflexivity.
  - apply (bool_decide_unpack _). vm_compute. exact I.
Defined.

(** [unregister(t)] keeps the registry consistent when [t] is the task
    that the tasks table holds under [t.ID], or the table holds none. *)
Theorem unregister_keeps_registry_inv (w : World) (p : loc) (t : PodTask) :
  registry_inv w ->
  heap w !! p = Some t ->
  (forall q, taskRegistry (k w) !! ID t = Some q -> q = p) ->
  exists w', unregister (Some p) w = (Ret tt, w') /\ registry_inv w'.
Proof.
  intros Hinv Hp Hsame.
  eexists. split; [apply (unregister_eval w p t Hp)|].
  eapply (registry_inv_delete_both _ _ _ _ Hinv Hsame Hp); reflexivity.
Qed.

(** Unregistering the task "T1" that [w_dup] holds: both entries go
    and the registry stays consistent. *)
Lemma unregister_keeps_registry_inv_witness :
  taskRegistry (k fixtures.w_dup) !! "T1" = Some 1%positive /\
  podToTask (k fixtures.w_dup) !! "/pods/ns/a" = Some "T1" /\
  exists w',
    unregister (Some 1%positive) fixtures.w_dup = (Ret tt, w') /\
    registry_inv w' /\
    taskRegistry (k w') !! "T1" = None /\
    podToTask (k w') !! "/pods/ns/a" = None.
Proof.
  split; [reflexivity|]. split; [reflexivity|].
  destruct (unregister_keeps_registry_inv fixtures.w_dup 1%positive fixtures.T1)
    as (w' & Hrun & Hinv).
  - apply fixtures_w_dup_inv.
  - reflexivity.
  - intros q Hq. vm_compute in Hq. injection Hq as <-. reflexivity.
  - exists w'. split; [exact Hrun|]. split; [exact Hinv|].
    rewrite (unregister_eval fixtures.w_dup 1%positive fixtures.T1 eq_refl) in Hrun.
    injection Hrun as <-. split; reflexivity.
Defined.

(** In a consistent registry the Finished tasks of the tasks table are
    no more than the ring has elements: [list] with the filter Finished
    returns, and returns at most that many ids. *)
Theorem finished_tasks_bounded_by_ring (w : World) :
  registry_inv w ->
  exists ids,
    list_ (Some StateFinished) w = (Ret ids, w) /\
    length ids <= length (ringValues w).
Proof.
  intros Hinv. unfold list_, bind, get. simpl.
  destruct (list_loop_filter StateFinished (map_to_list (taskRegistry (k w))) [] w)
    as (ids & Hrun & Hsub & Hmem).
  { intros id p H. apply elem_of_map_to_list in H.
    exact (registry_inv_no_dangling w Hinv id p H). }
  exists ids. split; [exact Hrun|].
  rewrite <- (length_fmap Some ids).
  apply submseteq_length, NoDup_submseteq.
  - apply (NoDup_fmap_2 Some).
    exact (sublist_NoDup _ _ (NoDup_fst_map_to_list _) Hsub).
  - intros x Hx. apply list_elem_of_fmap in Hx as (id & -> & Hid).
    apply Hmem in Hid as (p & t & H & Ht & Hs). apply elem_of_map_to_list in H.
    exact (inv_finished_ring w Hinv id p t H Ht Hs).
Qed.

(** The registry in which "T1" has run and finished is consistent. *)
Lemma fixtures2_w_done_inv : registry_inv fixtures2.w_done.
Proof.
  unfold fixtures2.w_done. simpl.
  apply updateStatus_inv_step, updateStatus_inv_step, fixtures_w_dup_inv.
Defined.

(** After "T1" has run and finished in a registry with a ring of three
    elements, the filter Finished lists "T1": one id, against a ring of
    three. *)
Lemma finished_tasks_bounded_by_ring_witness :
  exists ids,
    list_ (Some StateFinished) fixtures2.w_done = (Ret ids, fixtures2.w_done) /\
    length ids <= length (ringValues fixtures2.w_done) /\
    ids = ["T1"] /\
    length (ringValues fixtures2.w_done) = 3.
Proof.
  destruct (finished_tasks_bounded_by_ring fixtures2.w_done fixtures2_w_done_inv)
    as (ids & Hrun & Hlen).
  exists ids. split; [exact Hrun|]. split; [exact Hlen|].
  split; [|reflexivity].
  vm_compute in Hrun. injection Hrun as <-. reflexivity.
Defined.

(** ** The ring as a queue *)

(** The ring is a queue of as many places as it has elements: after
    [recordFinished] for a list of ids, the values of the ring, read from
    the next slot to be overwritten, are the values it had followed by the
    ids, less as many of the oldest as ids were recorded.  The calls
    return; they write no task and no entry of the pod table, the ring
    keeps its length, and the tasks table only loses entries. *)
Theorem ring_is_fifo (ids : list string) (w : World) :
  ringView w <> [] ->
  no_dangling w ->
  exists w',
    recordFinishedAll ids w = (Ret tt, w') /\
    ringView w' = drop (length ids) (ringView w ++ (Some <$> ids)) /\
    length (ringView w') = length (ringView w) /\
    heap w' = heap w /\
    podToTask (k w') = podToTask (k w) /\
    (forall id q, taskRegistry (k w') !! id = Some q ->
                  taskRegistry (k w) !! id = Some q).
Proof.
  revert w. induction ids as [|a rest IH]; intros w Hring Hwf; simpl.
  - exists w. rewrite drop_0, app_nil_r. auto 10.
  - destruct (ringView w) as [|x xs] eqn:Hview; [congruence|].
    destruct (recordFinished_step a w x xs Hview Hwf)
      as (w1 & Hrun & Hview1 & Hh & Hp & _ & _ & Hdel).
    destruct (IH w1) as (w2 & Hrun2 & Hview2 & Hlen2 & Hh2 & Hp2 & Hdel2).
    { rewrite Hview1. destruct xs; discriminate. }
    { intros id q Hq. rewrite Hh. apply (Hwf id q). apply Hdel. exact Hq. }
    exists w2. unfold bind. rewrite Hrun. split; [exact Hrun2|].
    split.
    { rewrite Hview2, Hview1, <- app_assoc. reflexivity. }
    split.
    { rewrite Hlen2, Hview1, length_app. simpl. lia. }
    split; [congruence|]. split; [congruence|]. auto.
Qed.

(** A new ring of three elements: recording A, B, C and D leaves B, C
    and D, oldest first. *)
Lemma ring_is_fifo_witness :
  exists w',
    recordFinishedAll ["A"; "B"; "C"; "D"] fixtures.w_ring = (Ret tt, w') /\
    ringView w' = [Some "B"; Some "C"; Some "D"].
Proof.
  destruct (ring_is_fifo ["A"; "B"; "C"; "D"] fixtures.w_ring)
    as (w' & Hrun & Hview & _).
  - discriminate.
  - intros id q Hq. unfold fixtures.w_ring in Hq. simpl in Hq.
    repeat (rewrite lookup_insert in Hq; case_decide;
            [injection Hq as <-; eexists; reflexivity|]).
    rewrite lookup_empty in Hq. discriminate Hq.
  - exists w'. split; [exact Hrun | exact Hview].
Defined.
